(** * The priority-ordered transaction pool (package [txpool])

    A shallow embedding of [priorityQueue] and of its operations, followed by
    the properties of the queue that the specification states.

    Conventions.
    - A Go [uint64] is a [Z]; every addition and subtraction the source
      performs is followed by [wrap64], comparisons are on the wrapped values.
    - A Go [map] is a [gmap]; reading a missing key gives the zero value,
      written [rd m k].
    - [sync.Mutex] makes every public operation atomic, so an operation is a
      function from the state before the call to the outcome of the call.
    - A Go [panic] aborts the operation: outcomes are [Ret] or [Panic]. *)

From stdpp Require Import base numbers list sorting strings gmap fin_maps.

Local Open Scope Z_scope.

(** ** Machine integers *)

Abbreviation uint64 := Z (only parsing).
Abbreviation uint32 := Z (only parsing).

Definition wrap64 (z : Z) : uint64 := z mod 2 ^ 64.
Definition wrap32 (z : Z) : uint32 := z mod 2 ^ 32.

Definition is_uint64 (z : Z) : Prop := 0 ≤ z < 2 ^ 64.

(** Reading a Go [map[K]uint64]: a missing key reads as 0. *)
Definition rd `{Countable K} (m : gmap K uint64) (k : K) : uint64 :=
  default 0 (m !! k).

(** ** Hashes

    [hash.Hash] is a byte array; a byte is a number below 256. *)

Abbreviation Hash := (list N) (only parsing).

(** [bytes.Compare]: lexicographic comparison, a proper prefix is smaller. *)
Fixpoint bytes_Compare (a b : list N) : comparison :=
  match a, b with
  | [], [] => Eq
  | [], _ :: _ => Lt
  | _ :: _, [] => Gt
  | x :: a', y :: b' =>
      match N.compare x y with
      | Eq => bytes_Compare a' b'
      | c => c
      end
  end.

(** [(h Hash).Equal(cmp *Hash)]: false on a nil pointer, else byte equality. *)
Definition Hash_Equal (h : Hash) (cmp : option Hash) : bool :=
  match cmp with
  | None => false
  | Some h' => bool_decide (h = h')
  end.

(** ** Transactions *)

Abbreviation Weight := string (only parsing).

(** Modelled from the spec: the weight dimensions of package [transaction]
    ([transaction.WeightCount] and its siblings), whose declarations are not
    part of the sources at hand; the spec names them [count], [size_bytes]
    and [consensus_messages]. *)
Definition WeightCount : Weight := "count".
Definition WeightSizeBytes : Weight := "size_bytes".
Definition WeightConsensusMessages : Weight := "consensus_messages".

(** Modelled from the spec: the handle [transaction.CheckedTransaction],
    whose declaration is not part of the sources at hand.  The spec gives it
    three immutable attributes: a fingerprint, an unsigned 64-bit priority
    and a weights vector from dimensions to unsigned 64-bit numbers. *)
Record CheckedTransaction := mkTx {
  tx_hash : Hash;
  tx_priority : uint64;
  tx_weights : gmap Weight uint64
}.

Definition Priority (t : CheckedTransaction) : uint64 := tx_priority t.
Definition TxHash (t : CheckedTransaction) : Hash := tx_hash t.
Definition Weights (t : CheckedTransaction) : gmap Weight uint64 := tx_weights t.
(** [tx.Weight(w)] reads the weights map; a missing dimension reads as 0. *)
Definition TxWeight (t : CheckedTransaction) (w : Weight) : uint64 :=
  rd (tx_weights t) w.

#[global] Instance CheckedTransaction_eq_dec : EqDecision CheckedTransaction.
Proof. solve_decision. Defined.

(** ** Items of the priority index *)

Record item := mkItem { tx : CheckedTransaction }.

#[global] Instance item_eq_dec : EqDecision item.
Proof. solve_decision. Defined.

(** [func (i item) Less(other btree.Item) bool] *)
Definition Less (i i2 : item) : bool :=
  let p1 := Priority (tx i) in
  let p2 := Priority (tx i2) in
  if negb (p1 =? p2) then p1 <? p2
  else
    match bytes_Compare (TxHash (tx i)) (TxHash (tx i2)) with
    | Lt => true
    | _ => false
    end.

(** ** The ordered index

    [github.com/google/btree] is an ordered set of items under [Less]; two
    items neither of which is less than the other are the same key.  The
    tree is represented by the list of its items in ascending order. *)
Module btree.

Abbreviation BTree := (list item).

Definition New : BTree := [].

(** [ReplaceOrInsert]: an item with the same key is replaced. *)
Fixpoint ReplaceOrInsert (i : item) (t : BTree) : BTree :=
  match t with
  | [] => [i]
  | x :: t' =>
      if Less i x then i :: x :: t'
      else if Less x i then x :: ReplaceOrInsert i t'
      else i :: t'
  end.

(** [Delete]: removes the item with the key of [i], if there is one. *)
Fixpoint Delete (i : item) (t : BTree) : BTree :=
  match t with
  | [] => []
  | x :: t' =>
      if Less i x then x :: t'
      else if Less x i then x :: Delete i t'
      else t'
  end.

(** [Min]: the smallest item, [nil] on an empty tree. *)
Definition Min (t : BTree) : option item := head t.

Definition Len (t : BTree) : nat := length t.

Definition Clear (t : BTree) : BTree := [].

(** The iterator protocol: the callback updates the variables it closes
    over (the state [S]) and answers whether to go on. *)
Fixpoint iterate {S : Type} (cb : item → S → S * bool)
    (items : list item) (s : S) : S :=
  match items with
  | [] => s
  | i :: rest =>
      let '(s', continue) := cb i s in
      if continue then iterate cb rest s' else s'
  end.

(** [Descend]: every item, from the largest to the smallest. *)
Definition Descend {S : Type} (t : BTree) (cb : item → S → S * bool)
    (s : S) : S :=
  iterate cb (reverse t) s.

(** [DescendLessOrEqual(pivot, ...)]: the items of the range
    [pivot, first], from the largest to the smallest; a nil pivot does
    not bound the range. *)
Definition DescendLessOrEqual {S : Type} (t : BTree) (pivot : option item)
    (cb : item → S → S * bool) (s : S) : S :=
  match pivot with
  | None => iterate cb (reverse t) s
  | Some p => iterate cb (reverse (filter (λ x, Less p x = false) t)) s
  end.

End btree.

(** ** The queue *)

Record priorityQueue := mkQueue {
  priorityIndex : btree.BTree;
  transactions : gmap Hash item;
  maxTxPoolSize : uint64;
  poolWeights : gmap Weight uint64;
  weightLimits : gmap Weight uint64;
  lowestPriority : uint64
}.

Definition set_lowestPriority (p : uint64) (q : priorityQueue) : priorityQueue :=
  mkQueue (priorityIndex q) (transactions q) (maxTxPoolSize q)
          (poolWeights q) (weightLimits q) p.

(** Outcome of an operation on the queue. *)
Inductive outcome (A : Type) : Type :=
  | Ret (a : A) (q : priorityQueue)
  | Panic (msg : string).
Arguments Ret {A} a q.
Arguments Panic {A} msg.

Definition bind {A B : Type} (m : outcome A) (k : A → priorityQueue → outcome B)
    : outcome B :=
  match m with
  | Ret a q => k a q
  | Panic msg => Panic msg
  end.

(** The errors [Add] returns. *)
Inductive AddError : Type :=
  | ErrPoolFull      (* "tx pool is full" *)
  | ErrCallTooLarge  (* "call too large", permanent *)
  | ErrAlreadyExists (* "tx already exists in pool" *).

(** [for k, v := range weights { m[k] += v }] *)
Definition addWeights (m weights : gmap Weight uint64) : gmap Weight uint64 :=
  map_fold (λ k v acc, <[k := wrap64 (rd acc k + v)]> acc) m weights.

(** [for k, v := range weights { m[k] -= v }] *)
Definition subWeights (m weights : gmap Weight uint64) : gmap Weight uint64 :=
  map_fold (λ k v acc, <[k := wrap64 (rd acc k - v)]> acc) m weights.

(** [for w, l := range q.weightLimits { if tx.Weight(w) > l { ... } }]: is
    some weight of the transaction above its limit?  Every way of ranging
    over the map gives the same answer. *)
Definition overLimit (limits : gmap Weight uint64) (t : CheckedTransaction) : bool :=
  existsb (λ '(w, l), l <? TxWeight t w) (map_to_list limits).

Definition isQueuedLocked (txHash : Hash) (q : priorityQueue) : bool :=
  bool_decide (is_Some (transactions q !! txHash)).

Definition checkTxLocked (t : CheckedTransaction) (q : priorityQueue)
    : option AddError :=
  if overLimit (weightLimits q) t then Some ErrCallTooLarge
  else if isQueuedLocked (TxHash t) q then Some ErrAlreadyExists
  else None.

(** The two size checks that end [Add] and [removeTxsLocked]. *)
Definition checkSizes (what : string) (q : priorityQueue) : outcome unit :=
  let mlen := size (transactions q) in
  let qlen := btree.Len (priorityIndex q) in
  if negb (bool_decide (mlen = qlen)) then
    Panic ("inconsistent sizes of the underlying index and map after " +:+ what)
  else if negb (wrap64 (Z.of_nat mlen) =? rd (poolWeights q) WeightCount) then
    Panic ("inconsistent sizes of the map and pool weight count after " +:+ what)
  else Ret () q.

(** One round of the loop of [removeTxsLocked]. *)
Definition removeOne (q : priorityQueue) (i : item) : priorityQueue :=
  match transactions q !! TxHash (tx i) with
  | None => q
  | Some _ =>
      mkQueue (btree.Delete i (priorityIndex q))
              (delete (TxHash (tx i)) (transactions q))
              (maxTxPoolSize q)
              (subWeights (poolWeights q) (Weights (tx i)))
              (weightLimits q)
              (lowestPriority q)
  end.

Definition removeTxsLocked (items : list item) (q : priorityQueue) : outcome unit :=
  let q1 := foldl removeOne q items in
  let q2 :=
    if bool_decide (0 < length items)%nat then
      match btree.Min (priorityIndex q1) with
      | Some lpi => set_lowestPriority (Priority (tx lpi)) q1
      | None => set_lowestPriority 0 q1
      end
    else q1 in
  checkSizes "removal" q2.

(** The insertion of [Add]: the new item goes into both indices, its
    weights are added to the totals, and [lowestPriority] is lowered when
    the priority of the new transaction is below it. *)
Definition insertTx (t : CheckedTransaction) (q : priorityQueue) : priorityQueue :=
  let i := mkItem t in
  mkQueue (btree.ReplaceOrInsert i (priorityIndex q))
          (<[TxHash t := i]> (transactions q))
          (maxTxPoolSize q)
          (addWeights (poolWeights q) (Weights t))
          (weightLimits q)
          (if Priority t <? lowestPriority q then Priority t
           else lowestPriority q).

Definition Add (t : CheckedTransaction) (q : priorityQueue)
    : outcome (option AddError) :=
  let needsPop := maxTxPoolSize q <=? rd (poolWeights q) WeightCount in
  if needsPop && (Priority t <=? lowestPriority q) then Ret (Some ErrPoolFull) q
  else
    match checkTxLocked t q with
    | Some err => Ret (Some err) q
    | None =>
        bind (if needsPop then
                match btree.Min (priorityIndex q) with
                | Some lpi => removeTxsLocked [lpi] q
                | None => Ret () q
                end
              else Ret () q)
          (λ _ q, bind (checkSizes "Add" (insertTx t q)) (λ _ q, Ret None q))
    end.

Definition newPriorityQueue (maxPoolSize : uint64)
    (weightLimits : gmap Weight uint64) : priorityQueue :=
  mkQueue btree.New ∅ maxPoolSize ∅ weightLimits 0.

(** *** [GetBatch]

    The callback of [Descend] ranges over the map [q.weightLimits] and
    leaves the loop at the first limit that decides the candidate, so its
    answer can depend on the order in which Go visits the map, which the
    language leaves open.  The order is made a parameter: a [rangeOrder]
    gives, for the candidate being visited, the order in which the entries
    of the map are seen.  It is a real order when it permutes the entries. *)
Definition rangeOrder : Type :=
  item → list (Weight * uint64) → list (Weight * uint64).

Definition rangeOrder_ok (order : rangeOrder) : Prop :=
  ∀ i l, order i l ≡ₚ l.

(** The order of [map_to_list] itself. *)
Definition inOrder : rangeOrder := λ _ l, l.

Definition minWeights : gmap Weight uint64 :=
  {[ WeightCount := 1; WeightSizeBytes := 10; WeightConsensusMessages := 0 ]}.

(** The ways the loop over the limits ends for one candidate. *)
Inductive fit : Type :=
  | TooLarge   (* weight above the limit: drop the tx from the pool *)
  | BatchFull  (* nothing can fit any more: stop the descent *)
  | Overflows  (* this tx would overflow the batch: skip it *)
  | Fits.

Fixpoint fitsBatch (limits : list (Weight * uint64))
    (batchWeights : gmap Weight uint64) (i : item) : fit :=
  match limits with
  | [] => Fits
  | (w, limit) :: rest =>
      let batchWeight := rd batchWeights w in
      let txW := TxWeight (tx i) w in
      if limit <? txW then TooLarge
      else if wrap64 (limit - batchWeight) <? rd minWeights w then BatchFull
      else if limit <? wrap64 (batchWeight + txW) then Overflows
      else fitsBatch rest batchWeights i
  end.

(** [for w, val := range weights { if _, ok := m[w]; ok { m[w] += val } }] *)
Definition addKnownWeights (m weights : gmap Weight uint64) : gmap Weight uint64 :=
  map_fold (λ w val acc,
              match acc !! w with
              | Some old => <[w := wrap64 (old + val)]> acc
              | None => acc
              end) m weights.

(** The variables the callback of [GetBatch] closes over. *)
Record batchState := mkBatchState {
  batch : list CheckedTransaction;
  batchWeights : gmap Weight uint64;
  toRemove : list item
}.

Definition visitBatch (order : rangeOrder) (limits : gmap Weight uint64)
    (i : item) (s : batchState) : batchState * bool :=
  match fitsBatch (order i (map_to_list limits)) (batchWeights s) i with
  | TooLarge =>
      (mkBatchState (batch s) (batchWeights s) (toRemove s ++ [i]), true)
  | BatchFull => (s, false)
  | Overflows => (s, true)
  | Fits =>
      (mkBatchState (batch s ++ [tx i])
                    (addKnownWeights (batchWeights s) (Weights (tx i)))
                    (toRemove s), true)
  end.

Definition GetBatch (order : rangeOrder) (force : bool) (q : priorityQueue)
    : outcome (list CheckedTransaction) :=
  let weightLimitReached :=
    existsb (λ '(k, v), v <=? rd (poolWeights q) k)
            (map_to_list (weightLimits q)) in
  if negb weightLimitReached && negb force then Ret [] q
  else
    let s0 := mkBatchState [] ((λ _, 0) <$> weightLimits q) [] in
    let s := btree.Descend (priorityIndex q)
                           (visitBatch order (weightLimits q)) s0 in
    bind (removeTxsLocked (toRemove s) q) (λ _ q, Ret (batch s) q).

(** *** [GetPrioritizedBatch] *)

Definition visitPrioritized (limits : gmap Weight uint64)
    (offset : option Hash) (limit : uint32)
    (i : item) (s : list CheckedTransaction * list item)
    : (list CheckedTransaction * list item) * bool :=
  let '(batch, toRemove) := s in
  if overLimit limits (tx i) then ((batch, toRemove ++ [i]), true)
  else if Hash_Equal (TxHash (tx i)) offset then (s, true)
  else
    let batch := batch ++ [tx i] in
    if limit <=? wrap32 (Z.of_nat (length batch)) then ((batch, toRemove), false)
    else ((batch, toRemove), true).

Definition GetPrioritizedBatch (offset : option Hash) (limit : uint32)
    (q : priorityQueue) : outcome (list CheckedTransaction) :=
  let descend (offsetItem : option item) :=
    let '(batch, toRemove) :=
      btree.DescendLessOrEqual (priorityIndex q) offsetItem
        (visitPrioritized (weightLimits q) offset limit) ([], []) in
    bind (removeTxsLocked toRemove q) (λ _ q, Ret batch q) in
  match offset with
  | None => descend None
  | Some h =>
      match transactions q !! h with
      | None => Ret [] q
      | Some offsetItem => descend (Some offsetItem)
      end
  end.

(** *** The remaining operations *)

Definition GetKnownBatch (batch : list Hash) (q : priorityQueue)
    : outcome (list (option CheckedTransaction) * gmap Hash nat) :=
  Ret (foldl (λ '(result, missing) '(index, txHash),
                match transactions q !! txHash with
                | Some i => (result ++ [Some (tx i)], missing)
                | None => (result ++ [None], <[txHash := index]> missing)
                end)
             ([], ∅) (imap pair batch)) q.

(** Go leaves the order of the range over [q.transactions] open; the order
    of [map_to_list] stands for it. *)
Definition GetTransactions (limit : Z) (q : priorityQueue)
    : outcome (list CheckedTransaction) :=
  let count := Z.of_nat (size (transactions q)) in
  let count := if (0 <? limit) && (limit <? count) then limit else count in
  Ret (take (Z.to_nat count) ((λ kv, tx kv.2) <$> map_to_list (transactions q))) q.

Definition RemoveTxBatch (batch : list Hash) (q : priorityQueue) : outcome unit :=
  let items := omap (λ txHash, transactions q !! txHash) batch in
  removeTxsLocked items q.

Definition IsQueued (txHash : Hash) (q : priorityQueue) : outcome bool :=
  Ret (isQueuedLocked txHash q) q.

Definition Size (q : priorityQueue) : outcome uint64 :=
  Ret (rd (poolWeights q) WeightCount) q.

Definition UpdateMaxPoolSize (maxPoolSize : uint64) (q : priorityQueue)
    : outcome unit :=
  Ret () (mkQueue (priorityIndex q) (transactions q) maxPoolSize
                  (poolWeights q) (weightLimits q) (lowestPriority q)).

Definition UpdateWeightLimits (limits : gmap Weight uint64) (q : priorityQueue)
    : outcome unit :=
  Ret () (mkQueue (priorityIndex q) (transactions q) (maxTxPoolSize q)
                  (poolWeights q) limits (lowestPriority q)).

Definition Clear (q : priorityQueue) : outcome unit :=
  Ret () (mkQueue (btree.Clear (priorityIndex q)) ∅ (maxTxPoolSize q)
                  ∅ (weightLimits q) 0).

(** ** Sequences of public operations *)

Inductive op : Type :=
  | OpAdd (t : CheckedTransaction)
  | OpGetBatch (order : rangeOrder) (force : bool)
  | OpGetPrioritizedBatch (offset : option Hash) (limit : uint32)
  | OpGetKnownBatch (batch : list Hash)
  | OpGetTransactions (limit : Z)
  | OpRemoveTxBatch (batch : list Hash)
  | OpIsQueued (txHash : Hash)
  | OpSize
  | OpUpdateMaxPoolSize (maxPoolSize : uint64)
  | OpUpdateWeightLimits (limits : gmap Weight uint64)
  | OpClear.

(** The effect of one call on the queue; what the call returns is dropped. *)
Definition forget {A : Type} (m : outcome A) : outcome unit :=
  bind m (λ _ q, Ret () q).

Definition step (o : op) (q : priorityQueue) : outcome unit :=
  match o with
  | OpAdd t => forget (Add t q)
  | OpGetBatch order force => forget (GetBatch order force q)
  | OpGetPrioritizedBatch offset limit => forget (GetPrioritizedBatch offset limit q)
  | OpGetKnownBatch batch => forget (GetKnownBatch batch q)
  | OpGetTransactions limit => forget (GetTransactions limit q)
  | OpRemoveTxBatch batch => RemoveTxBatch batch q
  | OpIsQueued txHash => forget (IsQueued txHash q)
  | OpSize => forget (Size q)
  | OpUpdateMaxPoolSize n => UpdateMaxPoolSize n q
  | OpUpdateWeightLimits limits => UpdateWeightLimits limits q
  | OpClear => Clear q
  end.

Fixpoint run (ops : list op) (q : priorityQueue) : outcome unit :=
  match ops with
  | [] => Ret () q
  | o :: rest => bind (step o q) (λ _ q', run rest q')
  end.

(** ** Runtime modes (package [registry]) *)

Abbreviation RuntimeMode := string (only parsing).

Definition RuntimeModeNone : RuntimeMode := "none".
Definition RuntimeModeCompute : RuntimeMode := "compute".
Definition RuntimeModeKeymanager : RuntimeMode := "keymanager".
Definition RuntimeModeClient : RuntimeMode := "client".
Definition RuntimeModeClientStateless : RuntimeMode := "client-stateless".

(** [func (m *RuntimeMode) UnmarshalText(text []byte) error]: the mode the
    receiver holds after the call, and the error, if any.  The text is the
    string the source converts the bytes to. *)
Definition UnmarshalText (m : RuntimeMode) (text : string)
    : RuntimeMode * option string :=
  if String.eqb text RuntimeModeNone then (RuntimeModeNone, None)
  else if String.eqb text RuntimeModeCompute then (RuntimeModeCompute, None)
  else if String.eqb text RuntimeModeKeymanager then (RuntimeModeKeymanager, None)
  else if String.eqb text RuntimeModeClient then (RuntimeModeClient, None)
  else if String.eqb text RuntimeModeClientStateless
       then (RuntimeModeClientStateless, None)
  else (m, Some ("invalid mode: " +:+ text)).

(** * Vocabulary of the properties *)

(** Two items have the same key when [Less] cannot tell them apart. *)
Definition sameKey (a b : item) : Prop :=
  Priority (tx a) = Priority (tx b) ∧ TxHash (tx a) = TxHash (tx b).

(** The representation invariant of the tree: ascending, no key twice. *)
Definition sortedIndex (t : btree.BTree) : Prop :=
  StronglySorted (λ a b, Less a b = true) t.

(** No item of the tree has the hash of [i]. *)
Definition freshIn (i : item) (t : btree.BTree) : Prop :=
  ∀ x, x ∈ t → TxHash (tx x) ≠ TxHash (tx i).

(** The sum over the items of a list of their weights in dimension [k]. *)
Definition totalWeight (k : Weight) (l : list item) : Z :=
  foldr (λ i acc, TxWeight (tx i) k + acc) 0 l.

(** Consistency of the queue.

    The state the two indices and the running totals are in between calls:
    the index is sorted, the map holds exactly the items of the index under
    their hashes, the totals are the sums of the weights, reduced modulo
    2^64, and every admitted transaction counts for one. *)
Record consistent (q : priorityQueue) : Prop := mkConsistent {
  cons_sorted : sortedIndex (priorityIndex q);
  cons_lookup : ∀ h i,
    transactions q !! h = Some i ↔ i ∈ priorityIndex q ∧ TxHash (tx i) = h;
  cons_size : size (transactions q) = length (priorityIndex q);
  cons_weights : ∀ k,
    rd (poolWeights q) k = wrap64 (totalWeight k (priorityIndex q));
  cons_count : ∀ i, i ∈ priorityIndex q → TxWeight (tx i) WeightCount = 1
}.

(** P1 of the spec, in the terms of the two checks of the source. *)
Definition sizesAgree (q : priorityQueue) : Prop :=
  size (transactions q) = btree.Len (priorityIndex q) ∧
  wrap64 (Z.of_nat (size (transactions q))) = rd (poolWeights q) WeightCount.

(** The items handed to [removeTxsLocked] were taken from the queue: each
    is the one the map holds under its hash, if the map still holds one. *)
Definition ownItems (q : priorityQueue) (items : list item) : Prop :=
  ∀ i, i ∈ items →
    transactions q !! TxHash (tx i) = Some i ∨
    transactions q !! TxHash (tx i) = None.

(** What [removeTxsLocked] leaves in [lowestPriority]. *)
Definition recomputed (items : list item) (q1 : priorityQueue) : uint64 :=
  if bool_decide (0 < length items)%nat then
    match btree.Min (priorityIndex q1) with
    | Some lpi => Priority (tx lpi)
    | None => 0
    end
  else lowestPriority q1.

(** The state in which [Add] inserts: the queue itself, or, when the pool is
    full, the queue without its lowest item. *)
Definition evicted (q : priorityQueue) : priorityQueue :=
  if maxTxPoolSize q <=? rd (poolWeights q) WeightCount then
    match btree.Min (priorityIndex q) with
    | Some lpi =>
        set_lowestPriority (recomputed [lpi] (removeOne q lpi)) (removeOne q lpi)
    | None => q
    end
  else q.

(** The calls the transaction source may make: every transaction it hands
    to [Add] counts for one. *)
Definition sourceOp (o : op) : Prop :=
  match o with
  | OpAdd t => TxWeight t WeightCount = 1
  | _ => True
  end.

(** The order in which [Descend] and [DescendLessOrEqual] visit. *)
Definition descending (items : list item) : Prop :=
  StronglySorted (λ a b, Less b a = true) items.

(** The order of a batch: priorities do not increase. *)
Definition byPriority (b : list CheckedTransaction) : Prop :=
  StronglySorted (λ a c, Priority c ≤ Priority a) b.

(** The weight of a batch in dimension [d]. *)
Definition batchTotal (d : Weight) (b : list CheckedTransaction) : Z :=
  foldr (λ t acc, TxWeight t d + acc) 0 b.

(** The running sums of the descent are the weights of the batch, and the
    batch is within the limits. *)
Definition withinLimits (limits : gmap Weight uint64) (s : batchState) : Prop :=
  ∀ w l, limits !! w = Some l →
    batchWeights s !! w = Some (batchTotal w (batch s)) ∧
    0 ≤ batchTotal w (batch s) ≤ l.

(** ** The data of the scenarios *)

(** Scenario S2: three transactions of priority 7 that differ in their
    hashes. *)
Definition S2_T1 : CheckedTransaction := mkTx [1%N] 7 {[ WeightCount := 1 ]}.
Definition S2_T2 : CheckedTransaction := mkTx [2%N] 7 {[ WeightCount := 1 ]}.
Definition S2_T3 : CheckedTransaction := mkTx [3%N] 7 {[ WeightCount := 1 ]}.

(** Scenario S5: five transactions, each counting for one, with their
    priorities and sizes, under limits on the count and on the size. *)
Definition S5_tx (h : N) (priority size : uint64) : CheckedTransaction :=
  mkTx [h] priority {[ WeightCount := 1; WeightSizeBytes := size ]}.

Definition S5_A := S5_tx 1 50 90.
Definition S5_B := S5_tx 2 40 30.
Definition S5_C := S5_tx 3 30 20.
Definition S5_D := S5_tx 4 20 5.
Definition S5_E := S5_tx 5 10 5.

Definition S5_limits : gmap Weight uint64 :=
  {[ WeightCount := 10; WeightSizeBytes := 100 ]}.

(** The index that holds the five transactions. *)
Definition S5_index : btree.BTree :=
  [mkItem S5_E; mkItem S5_D; mkItem S5_C; mkItem S5_B; mkItem S5_A].

Definition S5_ops : list op :=
  [OpAdd S5_A; OpAdd S5_B; OpAdd S5_C; OpAdd S5_D; OpAdd S5_E].

(** The pool of S5, filled by five calls of [Add]. *)
Definition S5_pool : priorityQueue :=
  match run S5_ops (newPriorityQueue 10 S5_limits) with
  | Ret _ q => q
  | Panic _ => newPriorityQueue 10 S5_limits
  end.

(** Scenario S3: a transaction of 1001 bytes under a limit of 1000. *)
Definition S3_limits : gmap Weight uint64 :=
  {[ WeightCount := 100; WeightSizeBytes := 1000 ]}.
Definition S3_T1 : CheckedTransaction :=
  mkTx [1%N] 1 {[ WeightCount := 1; WeightSizeBytes := 1001 ]}.

(** A sequence of calls that goes through eviction, a duplicate, lazy
    removal, explicit removal and [Clear]. *)
Definition P1_ops : list op :=
  [OpAdd S5_A; OpAdd S5_B; OpAdd S5_A; OpUpdateMaxPoolSize 1; OpAdd S5_C;
   OpUpdateWeightLimits {[ WeightSizeBytes := 25 ]}; OpGetBatch inOrder true;
   OpGetPrioritizedBatch None 1; OpRemoveTxBatch [[3%N]; [7%N]; [3%N]];
   OpAdd S5_D; OpClear; OpAdd S5_E].

(** Four transactions of rising priority, and pools that hold some of
    them. *)
Definition P5_A : CheckedTransaction := mkTx [1%N] 10 {[ WeightCount := 1 ]}.
Definition P5_B : CheckedTransaction := mkTx [2%N] 20 {[ WeightCount := 1 ]}.
Definition P5_C : CheckedTransaction := mkTx [3%N] 30 {[ WeightCount := 1 ]}.
Definition P5_D : CheckedTransaction := mkTx [4%N] 40 {[ WeightCount := 1 ]}.

Definition P5_pool : priorityQueue :=
  match run [OpAdd P5_A; OpAdd P5_B; OpAdd P5_C] (newPriorityQueue 3 ∅) with
  | Ret _ q => q
  | Panic _ => newPriorityQueue 3 ∅
  end.

Definition P5_pool' : priorityQueue :=
  match Add P5_D P5_pool with
  | Ret _ q => q
  | Panic _ => P5_pool
  end.

Definition L2_pool : priorityQueue :=
  match run [OpAdd P5_A; OpAdd P5_C] (newPriorityQueue 3 ∅) with
  | Ret _ q => q
  | Panic _ => newPriorityQueue 3 ∅
  end.

Definition L2_pool' : priorityQueue :=
  match Add P5_B L2_pool with
  | Ret _ q => q
  | Panic _ => L2_pool
  end.

(** Two transactions that weigh 2^63 consensus messages each, under the
    largest limit a [uint64] can hold. *)
Definition L4_limits : gmap Weight uint64 :=
  {[ WeightConsensusMessages := 2 ^ 64 - 1 ]}.
Definition L4_A : CheckedTransaction :=
  mkTx [1%N] 20 {[ WeightCount := 1; WeightConsensusMessages := 2 ^ 63 ]}.
Definition L4_B : CheckedTransaction :=
  mkTx [2%N] 10 {[ WeightCount := 1; WeightConsensusMessages := 2 ^ 63 ]}.

(** ** Further vocabulary and scenario data *)

(** [lowestPriority] is below the priority of every queued transaction. *)
Definition lowestBound (q : priorityQueue) : Prop :=
  ∀ x, x ∈ priorityIndex q → lowestPriority q ≤ Priority (tx x).

(** Whether the pool counts as full for [Add]. *)
Definition poolFull (q : priorityQueue) : Prop :=
  maxTxPoolSize q ≤ rd (poolWeights q) WeightCount.

(** A transaction of priority 0. *)
Definition P5_Z : CheckedTransaction := mkTx [9%N] 0 {[ WeightCount := 1 ]}.

(** Scenario S6: a transaction of 500 bytes and one of 50 bytes are queued
    under a limit of 1000 bytes, then the limit is lowered to 100. *)
Definition S6_T1 : CheckedTransaction :=
  mkTx [1%N] 10 {[ WeightCount := 1; WeightSizeBytes := 500 ]}.
Definition S6_T2 : CheckedTransaction :=
  mkTx [2%N] 5 {[ WeightCount := 1; WeightSizeBytes := 50 ]}.
Definition S6_ops : list op :=
  [OpAdd S6_T1; OpAdd S6_T2;
   OpUpdateWeightLimits {[ WeightCount := 100; WeightSizeBytes := 100 ]}].
Definition S6_pool : priorityQueue :=
  match run S6_ops (newPriorityQueue 10 S3_limits) with
  | Ret _ q => q
  | Panic _ => newPriorityQueue 10 S3_limits
  end.
Definition S6_pool' : priorityQueue :=
  match GetBatch inOrder true S6_pool with
  | Ret _ q => q
  | Panic _ => S6_pool
  end.

(** The items [GetPrioritizedBatch] lists among those it visits: within
    the weight limits and not the offset. *)
Definition listed (limits : gmap Weight uint64) (offset : option Hash)
    (i : item) : Prop :=
  overLimit limits (tx i) = false ∧ Hash_Equal (TxHash (tx i)) offset = false.

#[global] Instance listed_dec limits offset i : Decision (listed limits offset i).
Proof. unfold listed. apply _. Defined.

(** The calls that cannot change the capacity and the limits: all but the
    two updates. *)
Definition notUpdate (o : op) : Prop :=
  match o with
  | OpUpdateMaxPoolSize _ | OpUpdateWeightLimits _ => False
  | _ => True
  end.

(** The calls that cannot add a transaction: all but [Add]. *)
Definition notAdd (o : op) : Prop :=
  match o with
  | OpAdd _ => False
  | _ => True
  end.

(** The calls of the transaction source that leave the capacity alone. *)
Definition capacityKept (o : op) : Prop :=
  match o with
  | OpUpdateMaxPoolSize _ => False
  | _ => sourceOp o
  end.

(** * Properties *)

(** ** Machine arithmetic *)

Lemma wrap64_range z : is_uint64 (wrap64 z).
Proof. unfold is_uint64, wrap64. apply Z.mod_pos_bound. lia. Qed.

Lemma wrap64_small z : is_uint64 z → wrap64 z = z.
Proof. unfold is_uint64, wrap64. intros. apply Z.mod_small. lia. Qed.

Lemma wrap64_idemp z : wrap64 (wrap64 z) = wrap64 z.
Proof. apply wrap64_small, wrap64_range. Qed.

Lemma wrap64_add_l a b : wrap64 (wrap64 a + b) = wrap64 (a + b).
Proof. unfold wrap64. apply Zplus_mod_idemp_l. Qed.

Lemma wrap64_sub_l a b : wrap64 (wrap64 a - b) = wrap64 (a - b).
Proof. unfold wrap64. apply Zminus_mod_idemp_l. Qed.

Lemma wrap64_le z : 0 ≤ z → wrap64 z ≤ z.
Proof. unfold wrap64. intros. apply Z.mod_le; lia. Qed.

(** ** The order of the index *)

Lemma bytes_Compare_refl a : bytes_Compare a a = Eq.
Proof. induction a as [|x a IH]; simpl; [done|]. by rewrite N.compare_refl. Qed.

Lemma bytes_Compare_Eq a b : bytes_Compare a b = Eq → a = b.
Proof.
  revert b. induction a as [|x a IH]; intros [|y b]; simpl; try done.
  destruct (N.compare_spec x y) as [->| |]; try done.
  intros H. by rewrite (IH _ H).
Qed.

Lemma bytes_Compare_antisym a b :
  bytes_Compare b a = CompOpp (bytes_Compare a b).
Proof.
  revert b. induction a as [|x a IH]; intros [|y b]; simpl; try done.
  rewrite (N.compare_antisym x y).
  destruct (N.compare x y); simpl; auto.
Qed.

Lemma bytes_Compare_trans a b c :
  bytes_Compare a b = Lt → bytes_Compare b c = Lt → bytes_Compare a c = Lt.
Proof.
  revert b c. induction a as [|x a IH]; intros [|y b] [|z c]; simpl; try done.
  destruct (N.compare_spec x y) as [->|Hxy|]; try done.
  - destruct (N.compare_spec y z); try done. apply IH.
  - intros _. destruct (N.compare_spec y z) as [->|Hyz|]; try done; intros _.
    + apply N.compare_lt_iff in Hxy. by rewrite Hxy.
    + assert (x < z)%N as Hxz by lia.
      apply N.compare_lt_iff in Hxz. by rewrite Hxz.
Qed.

Lemma Less_irrefl a : Less a a = false.
Proof. unfold Less. by rewrite Z.eqb_refl, bytes_Compare_refl. Qed.

Lemma Less_trans a b c : Less a b = true → Less b c = true → Less a c = true.
Proof.
  unfold Less.
  destruct (Z.eqb_spec (Priority (tx a)) (Priority (tx b))) as [Eab|Nab],
           (Z.eqb_spec (Priority (tx b)) (Priority (tx c))) as [Ebc|Nbc],
           (Z.eqb_spec (Priority (tx a)) (Priority (tx c))) as [Eac|Nac];
    simpl; rewrite ?Z.ltb_lt; try lia.
  destruct (bytes_Compare (TxHash (tx a)) (TxHash (tx b))) eqn:Hab; try done.
  destruct (bytes_Compare (TxHash (tx b)) (TxHash (tx c))) eqn:Hbc; try done.
  by rewrite (bytes_Compare_trans _ _ _ Hab Hbc).
Qed.

Lemma Less_asym a b : Less a b = true → Less b a = false.
Proof.
  intros Hab. destruct (Less b a) eqn:Hba; [|done].
  pose proof (Less_trans _ _ _ Hab Hba) as H. by rewrite Less_irrefl in H.
Qed.

Lemma Less_total a b : Less a b = false → Less b a = false → sameKey a b.
Proof.
  unfold Less, sameKey.
  destruct (Z.eqb_spec (Priority (tx a)) (Priority (tx b))) as [Eab|Nab],
           (Z.eqb_spec (Priority (tx b)) (Priority (tx a))) as [Eba|Nba];
    simpl; rewrite ?Z.ltb_ge; try lia.
  rewrite (bytes_Compare_antisym (TxHash (tx a)) (TxHash (tx b))).
  destruct (bytes_Compare (TxHash (tx a)) (TxHash (tx b))) eqn:Hab; try done.
  intros _ _. split; [done|]. by apply bytes_Compare_Eq.
Qed.

Lemma Less_sameKey_l a a' b : sameKey a a' → Less a b = Less a' b.
Proof. unfold sameKey, Less. by intros [-> ->]. Qed.

Lemma Less_sameKey_r a b b' : sameKey b b' → Less a b = Less a b'.
Proof. unfold sameKey, Less. by intros [-> ->]. Qed.

Lemma Less_Priority a b : Less a b = true → Priority (tx a) ≤ Priority (tx b).
Proof.
  unfold Less.
  destruct (Z.eqb_spec (Priority (tx a)) (Priority (tx b))); simpl;
    rewrite ?Z.ltb_lt; lia.
Qed.

Lemma Less_hash_ne a b :
  TxHash (tx a) ≠ TxHash (tx b) → Less a b = false → Less b a = true.
Proof.
  intros Hne Hab. destruct (Less b a) eqn:Hba; [done|].
  by destruct (Less_total _ _ Hab Hba).
Qed.

(** ** The ordered index as a sorted list *)

Lemma sortedIndex_nil : sortedIndex [].
Proof. constructor. Qed.

Lemma sortedIndex_inv x t :
  sortedIndex (x :: t) → sortedIndex t ∧ Forall (λ y, Less x y = true) t.
Proof. intros H. by inversion_clear H. Qed.

Lemma sortedIndex_NoDup t : sortedIndex t → NoDup t.
Proof.
  induction t as [|x t IH]; intros H; [constructor|].
  apply sortedIndex_inv in H as [Ht Hx]. constructor; [|by apply IH].
  intros Hin. rewrite Forall_forall in Hx.
  specialize (Hx _ Hin). by rewrite Less_irrefl in Hx.
Qed.

Lemma freshIn_cons i x t :
  freshIn i (x :: t) ↔ TxHash (tx x) ≠ TxHash (tx i) ∧ freshIn i t.
Proof.
  unfold freshIn. split.
  - intros H. split; [apply H; left|]. intros y Hy. apply H. by right.
  - intros [Hx Ht] y Hy. apply elem_of_cons in Hy as [->|Hy]; auto.
Qed.

Lemma ReplaceOrInsert_fresh i t :
  freshIn i t → btree.ReplaceOrInsert i t ≡ₚ i :: t.
Proof.
  induction t as [|x t IH]; simpl; intros Hf; [done|].
  apply freshIn_cons in Hf as [Hx Ht].
  destruct (Less i x) eqn:Hix; [done|].
  rewrite (Less_hash_ne i x) by (done || by apply not_eq_sym).
  rewrite (IH Ht). apply perm_swap.
Qed.

Lemma ReplaceOrInsert_Forall (P : item → Prop) i t :
  P i → Forall P t → Forall P (btree.ReplaceOrInsert i t).
Proof.
  intros Hi. induction 1 as [|x t Hx Ht IH]; simpl.
  - by constructor.
  - destruct (Less i x); [by repeat constructor|].
    destruct (Less x i); by constructor.
Qed.

Lemma ReplaceOrInsert_sorted i t :
  sortedIndex t → sortedIndex (btree.ReplaceOrInsert i t).
Proof.
  induction t as [|x t IH]; simpl; intros Hs.
  - repeat constructor.
  - pose proof Hs as Hs'. apply sortedIndex_inv in Hs' as [Ht Hx].
    destruct (Less i x) eqn:Hix.
    + constructor; [done|]. constructor; [done|].
      eapply Forall_impl; [exact Hx|]. intros y Hy. by eapply Less_trans.
    + destruct (Less x i) eqn:Hxi.
      * constructor; [by apply IH|]. by apply ReplaceOrInsert_Forall.
      * constructor; [done|].
        eapply Forall_impl; [exact Hx|]. intros y Hy.
        by rewrite (Less_sameKey_l i x y (Less_total _ _ Hix Hxi)).
  Qed.

Lemma Delete_sorted i t : sortedIndex t → sortedIndex (btree.Delete i t).
Proof.
  induction t as [|x t IH]; simpl; intros Hs; [done|].
  pose proof Hs as Hs'. apply sortedIndex_inv in Hs' as [Ht Hx].
  destruct (Less i x); [done|]. destruct (Less x i); [|done].
  constructor; [by apply IH|].
  clear IH Hs. induction Hx as [|y t Hy Hyt IH]; simpl; [constructor|].
  apply sortedIndex_inv in Ht as [Ht _].
  destruct (Less i y); [by constructor|].
  destruct (Less y i); [constructor; auto | done].
Qed.

Lemma Delete_member i t :
  sortedIndex t → i ∈ t → t ≡ₚ i :: btree.Delete i t.
Proof.
  induction t as [|x t IH]; simpl; intros Hs Hin; [by apply elem_of_nil in Hin|].
  apply sortedIndex_inv in Hs as [Ht Hx]. rewrite Forall_forall in Hx.
  apply elem_of_cons in Hin as [->|Hin].
  - by rewrite Less_irrefl.
  - pose proof (Hx _ Hin) as Hxi.
    rewrite (Less_asym _ _ Hxi), Hxi.
    rewrite (IH Ht Hin) at 1. apply perm_swap.
Qed.

Lemma Delete_not_member i t :
  sortedIndex t → i ∈ t → i ∉ btree.Delete i t.
Proof.
  intros Hs Hin Hdel. apply sortedIndex_NoDup in Hs as Hnd.
  rewrite (Delete_member i t Hs Hin) in Hnd.
  by apply NoDup_cons in Hnd as [? _].
Qed.

Lemma Delete_elem_of i t y :
  sortedIndex t → i ∈ t → y ∈ btree.Delete i t ↔ y ∈ t ∧ y ≠ i.
Proof.
  intros Hs Hin. pose proof (Delete_not_member i t Hs Hin) as Hni.
  rewrite (Delete_member i t Hs Hin) at 2. rewrite elem_of_cons.
  split; [intros Hy; split; [by right|by intros ->] | by intros [[->|?] ?]].
Qed.

(** The smallest item of a sorted index is its head. *)
Lemma Min_least t m x :
  sortedIndex t → btree.Min t = Some m → x ∈ t →
  Priority (tx m) ≤ Priority (tx x).
Proof.
  destruct t as [|y t]; simpl; [done|]. intros Hs [= ->] Hin.
  apply sortedIndex_inv in Hs as [_ Hx]. rewrite Forall_forall in Hx.
  apply elem_of_cons in Hin as [->|Hin]; [lia|].
  by apply Less_Priority, Hx.
Qed.

Lemma Min_member t m : btree.Min t = Some m → m ∈ t.
Proof. destruct t; simpl; [done|]. intros [= ->]. left. Qed.

(** ** Weights *)

#[global] Instance totalWeight_perm k : Proper ((≡ₚ) ==> (=)) (totalWeight k).
Proof.
  intros l1 l2 H. induction H; simpl; lia.
Qed.

Lemma rd_insert (m : gmap Weight uint64) k k' v :
  rd (<[k := v]> m) k' = if decide (k = k') then v else rd m k'.
Proof. unfold rd. rewrite lookup_insert. by case_decide. Qed.

Lemma rd_empty (k : Weight) : rd (∅ : gmap Weight uint64) k = 0.
Proof. unfold rd. by rewrite lookup_empty. Qed.

Lemma addWeights_rd m weights k :
  rd (addWeights m weights) k =
  match weights !! k with
  | Some v => wrap64 (rd m k + v)
  | None => rd m k
  end.
Proof.
  unfold addWeights.
  apply (map_fold_weak_ind (λ r w,
    rd r k = match w !! k with Some v => wrap64 (rd m k + v) | None => rd m k end)).
  - by rewrite lookup_empty.
  - intros j x w r Hj IH. rewrite rd_insert, lookup_insert.
    destruct (decide (j = k)) as [->|]; [|done].
    rewrite Hj in IH. by rewrite IH.
Qed.

Lemma subWeights_rd m weights k :
  rd (subWeights m weights) k =
  match weights !! k with
  | Some v => wrap64 (rd m k - v)
  | None => rd m k
  end.
Proof.
  unfold subWeights.
  apply (map_fold_weak_ind (λ r w,
    rd r k = match w !! k with Some v => wrap64 (rd m k - v) | None => rd m k end)).
  - by rewrite lookup_empty.
  - intros j x w r Hj IH. rewrite rd_insert, lookup_insert.
    destruct (decide (j = k)) as [->|]; [|done].
    rewrite Hj in IH. by rewrite IH.
Qed.

(** ** Consistency of the queue *)

Lemma totalWeight_count l :
  (∀ i, i ∈ l → TxWeight (tx i) WeightCount = 1) →
  totalWeight WeightCount l = Z.of_nat (length l).
Proof.
  induction l as [|x l IH]; simpl; intros H; [done|].
  rewrite (H x) by left. rewrite IH; [lia|]. intros i Hi. apply H. by right.
Qed.

Lemma consistent_sizesAgree q : consistent q → sizesAgree q.
Proof.
  intros [Hs Hl Hn Hw Hc]. split; [done|].
  by rewrite Hw, totalWeight_count, Hn.
Qed.

Lemma checkSizes_sizesAgree what q : sizesAgree q → checkSizes what q = Ret () q.
Proof.
  intros [H1 H2]. unfold checkSizes.
  rewrite bool_decide_true by done. simpl.
  by rewrite H2, Z.eqb_refl.
Qed.

Lemma checkSizes_Ret what q u q' :
  checkSizes what q = Ret u q' → q' = q ∧ sizesAgree q.
Proof.
  unfold checkSizes, sizesAgree.
  case_bool_decide as H1; simpl; [|done].
  destruct (Z.eqb_spec (wrap64 (Z.of_nat (size (transactions q))))
                       (rd (poolWeights q) WeightCount)); simpl; [|done].
  by intros [= _ ->].
Qed.

Lemma consistent_empty maxPoolSize limits :
  consistent (newPriorityQueue maxPoolSize limits).
Proof.
  split; simpl.
  - apply sortedIndex_nil.
  - intros h i. rewrite lookup_empty, elem_of_nil. split; [done|by intros []].
  - by rewrite map_size_empty.
  - intros k. by rewrite rd_empty.
  - intros i Hi. by apply elem_of_nil in Hi.
Qed.

Lemma consistent_set_lowestPriority p q :
  consistent q → consistent (set_lowestPriority p q).
Proof. by intros []. Qed.

(** An item of the index is what the map holds under its hash. *)
Lemma consistent_member q i :
  consistent q → i ∈ priorityIndex q → transactions q !! TxHash (tx i) = Some i.
Proof. intros Hq Hi. by apply (cons_lookup q Hq). Qed.

(** *** Removal *)

Lemma removeOne_frame q i :
  maxTxPoolSize (removeOne q i) = maxTxPoolSize q ∧
  weightLimits (removeOne q i) = weightLimits q ∧
  lowestPriority (removeOne q i) = lowestPriority q.
Proof. unfold removeOne. by destruct (transactions q !! _). Qed.

Lemma removeOne_consistent q i :
  consistent q → i ∈ priorityIndex q → consistent (removeOne q i).
Proof.
  intros Hq Hi. pose proof (consistent_member q i Hq Hi) as Hm.
  unfold removeOne. rewrite Hm.
  destruct Hq as [Hs Hl Hn Hw Hc]. split; simpl.
  - by apply Delete_sorted.
  - intros h y. rewrite lookup_delete_Some, Hl, Delete_elem_of by done.
    split.
    + intros (Hne & Hy & <-). repeat split; [done|]. by intros ->.
    + intros ((Hy & Hne) & <-). repeat split; [|done].
      intros Heq. apply Hne.
      assert (transactions q !! TxHash (tx i) = Some y) as Hy'
        by (by apply Hl).
      congruence.
  - rewrite map_size_delete_Some by eauto.
    rewrite (Permutation_length (Delete_member i _ Hs Hi)) in Hn. simpl in Hn.
    lia.
  - intros k. rewrite subWeights_rd, Hw.
    assert (totalWeight k (priorityIndex q) =
            TxWeight (tx i) k + totalWeight k (btree.Delete i (priorityIndex q)))
      as -> by (by rewrite (Delete_member i _ Hs Hi) at 1).
    unfold TxWeight, Weights, rd.
    destruct (tx_weights (tx i) !! k) as [v|]; simpl.
    + rewrite wrap64_sub_l. f_equal. lia.
    + done.
  - intros y Hy. apply Hc. by apply (Delete_elem_of i _ y Hs Hi).
Qed.

Lemma removeOne_members q i y :
  consistent q → y ∈ priorityIndex (removeOne q i) → y ∈ priorityIndex q.
Proof.
  intros Hq. unfold removeOne.
  destruct (transactions q !! TxHash (tx i)) as [i'|] eqn:Hm; [|done].
  simpl. apply (cons_lookup q Hq) in Hm as [Hi' Hh].
  destruct (decide (i ∈ priorityIndex q)) as [Hi|Hi].
  - rewrite Delete_elem_of by (done || apply Hq). tauto.
  - intros Hy. clear -Hy. induction (priorityIndex q) as [|x t IH]; [done|].
    simpl in Hy. destruct (Less i x); [done|]. destruct (Less x i).
    + apply elem_of_cons in Hy as [->|Hy]; [left | right; auto].
    + by right.
Qed.

(** An item that left the index, or never was in it, is skipped by the
    loop of [removeTxsLocked]: the map does not hold it. *)
Lemma removeOne_skip q i :
  consistent q → transactions q !! TxHash (tx i) = Some i ∨
                 transactions q !! TxHash (tx i) = None →
  consistent (removeOne q i).
Proof.
  intros Hq [Hm|Hm].
  - apply removeOne_consistent; [done|]. by apply (cons_lookup q Hq) in Hm as [? _].
  - unfold removeOne. by rewrite Hm.
Qed.

Lemma ownItems_members q items :
  consistent q → (∀ i, i ∈ items → i ∈ priorityIndex q) → ownItems q items.
Proof. intros Hq H i Hi. left. apply consistent_member; auto. Qed.

Lemma ownItems_removeOne q i items :
  ownItems q items → ownItems (removeOne q i) items.
Proof.
  intros H y Hy. unfold removeOne.
  destruct (transactions q !! TxHash (tx i)) eqn:Hm; [|by apply H].
  simpl. destruct (decide (TxHash (tx i) = TxHash (tx y))) as [Heq|Hne].
  - right. rewrite <- Heq. apply lookup_delete_eq.
  - rewrite lookup_delete_ne by done. by apply H.
Qed.

Lemma foldl_removeOne_consistent items q :
  consistent q → ownItems q items → consistent (foldl removeOne q items).
Proof.
  revert q. induction items as [|i items IH]; simpl; intros q Hq Ho; [done|].
  apply IH.
  - apply removeOne_skip; [done|]. apply Ho. left.
  - apply ownItems_removeOne. intros y Hy. apply Ho. by right.
Qed.

Lemma foldl_removeOne_frame items q :
  maxTxPoolSize (foldl removeOne q items) = maxTxPoolSize q ∧
  weightLimits (foldl removeOne q items) = weightLimits q ∧
  lowestPriority (foldl removeOne q items) = lowestPriority q.
Proof.
  revert q. induction items as [|i items IH]; simpl; intros q; [done|].
  destruct (IH (removeOne q i)) as (-> & -> & ->). apply removeOne_frame.
Qed.

Lemma removeTxsLocked_unfold items q :
  removeTxsLocked items q =
  checkSizes "removal"
    (set_lowestPriority (recomputed items (foldl removeOne q items))
                        (foldl removeOne q items)).
Proof.
  unfold removeTxsLocked, recomputed. f_equal.
  case_bool_decide.
  - by destruct (btree.Min (priorityIndex (foldl removeOne q items))).
  - by destruct (foldl removeOne q items).
Qed.

Lemma removeTxsLocked_consistent items q :
  consistent q → ownItems q items →
  removeTxsLocked items q =
    Ret () (set_lowestPriority (recomputed items (foldl removeOne q items))
                               (foldl removeOne q items)) ∧
  consistent (set_lowestPriority (recomputed items (foldl removeOne q items))
                                 (foldl removeOne q items)).
Proof.
  intros Hq Ho.
  pose proof (foldl_removeOne_consistent items q Hq Ho) as Hq1.
  apply (consistent_set_lowestPriority
           (recomputed items (foldl removeOne q items))) in Hq1.
  split; [|done]. rewrite removeTxsLocked_unfold.
  by apply checkSizes_sizesAgree, consistent_sizesAgree.
Qed.

(** *** Admission *)

Lemma overLimit_false limits t :
  overLimit limits t = false ↔
  ∀ w l, limits !! w = Some l → TxWeight t w ≤ l.
Proof.
  unfold overLimit. rewrite <- not_true_iff_false, existsb_exists. split.
  - intros H w l Hw. destruct (Z.ltb_spec l (TxWeight t w)) as [Hlt|]; [|done].
    exfalso. apply H. exists (w, l). split.
    + apply list_elem_of_In. by apply elem_of_map_to_list.
    + by apply Z.ltb_lt.
  - intros H ([w l] & Hin & Hlt).
    apply list_elem_of_In, elem_of_map_to_list in Hin.
    apply Z.ltb_lt in Hlt. specialize (H _ _ Hin). lia.
Qed.

Lemma checkTxLocked_None t q :
  checkTxLocked t q = None ↔
  overLimit (weightLimits q) t = false ∧ transactions q !! TxHash t = None.
Proof.
  unfold checkTxLocked, isQueuedLocked.
  destruct (overLimit (weightLimits q) t); [by split; [|intros []]|].
  case_bool_decide as Hq.
  - destruct Hq as [x Hx]. rewrite Hx. by split; [|intros []].
  - split; [|done]. intros _. split; [done|].
    by apply eq_None_not_Some.
Qed.

Lemma insertTx_consistent t q :
  consistent q → transactions q !! TxHash t = None →
  TxWeight t WeightCount = 1 → consistent (insertTx t q).
Proof.
  intros [Hs Hl Hn Hw Hc] Hnone Hcount.
  assert (freshIn (mkItem t) (priorityIndex q)) as Hfresh.
  { intros x Hx Heq. simpl in Heq.
    assert (transactions q !! TxHash t = Some x) by (by apply Hl). congruence. }
  pose proof (ReplaceOrInsert_fresh _ _ Hfresh) as Hperm.
  split; simpl.
  - by apply ReplaceOrInsert_sorted.
  - intros h y. rewrite lookup_insert_Some, Hperm, elem_of_cons, Hl. split.
    + intros [[<- <-]|(Hne & Hy & <-)]; [split; [by left|done] | split; [by right|done]].
    + intros [[->|Hy] <-]; simpl; [by left|]. right. repeat split; [|done].
      intros Heq. by apply (Hfresh y).
  - rewrite map_size_insert_None by done. rewrite Hperm. simpl. by rewrite Hn.
  - intros k. rewrite addWeights_rd, Hw, Hperm. simpl.
    unfold TxWeight, Weights, rd.
    destruct (tx_weights t !! k) as [v|]; simpl.
    + rewrite wrap64_add_l. f_equal. lia.
    + done.
  - intros y. rewrite Hperm, elem_of_cons. intros [->|Hy]; [done|by apply Hc].
Qed.

(** Removal only shrinks the map. *)
Lemma foldl_removeOne_lookup items q h x :
  transactions (foldl removeOne q items) !! h = Some x →
  transactions q !! h = Some x.
Proof.
  revert q. induction items as [|i items IH]; simpl; intros q; [done|].
  intros H. apply IH in H. unfold removeOne in H.
  destruct (transactions q !! TxHash (tx i)); [|done].
  simpl in H. by apply lookup_delete_Some in H as [_ H].
Qed.

Lemma foldl_removeOne_lookup_None items q h :
  transactions q !! h = None →
  transactions (foldl removeOne q items) !! h = None.
Proof.
  intros Hnone. apply eq_None_not_Some. intros [x Hx].
  apply foldl_removeOne_lookup in Hx. congruence.
Qed.

Lemma evicted_consistent q : consistent q → consistent (evicted q).
Proof.
  intros Hq. unfold evicted.
  destruct (maxTxPoolSize q <=? rd (poolWeights q) WeightCount); [|done].
  destruct (btree.Min (priorityIndex q)) as [lpi|] eqn:Hmin; [|done].
  apply consistent_set_lowestPriority, removeOne_consistent; [done|].
  by apply Min_member.
Qed.

Lemma evicted_lookup_None q h :
  transactions q !! h = None → transactions (evicted q) !! h = None.
Proof.
  intros Hnone. unfold evicted.
  destruct (maxTxPoolSize q <=? rd (poolWeights q) WeightCount); [|done].
  destruct (btree.Min (priorityIndex q)) as [lpi|]; [|done].
  simpl. by apply (foldl_removeOne_lookup_None [lpi]).
Qed.

(** [Add] on a consistent queue, with the insertion spelled out. *)
Lemma Add_consistent_unfold t q :
  consistent q →
  Add t q =
    if (maxTxPoolSize q <=? rd (poolWeights q) WeightCount)
       && (Priority t <=? lowestPriority q)
    then Ret (Some ErrPoolFull) q
    else match checkTxLocked t q with
         | Some err => Ret (Some err) q
         | None =>
             bind (checkSizes "Add" (insertTx t (evicted q)))
                  (λ _ q, Ret None q)
         end.
Proof.
  intros Hq. unfold Add, evicted.
  destruct (_ && _); [done|].
  destruct (checkTxLocked t q); [done|].
  destruct (maxTxPoolSize q <=? rd (poolWeights q) WeightCount); [|done].
  destruct (btree.Min (priorityIndex q)) as [lpi|] eqn:Hmin; [|done].
  destruct (removeTxsLocked_consistent [lpi] q Hq) as [-> _]; [|done].
  apply ownItems_members; [done|].
  intros i Hi. apply list_elem_of_singleton in Hi as ->. by apply Min_member.
Qed.

(** [Add] of a transaction that counts for one keeps the queue consistent
    and does not panic. *)
Lemma Add_consistent t q :
  consistent q → TxWeight t WeightCount = 1 →
  ∃ r q', Add t q = Ret r q' ∧ consistent q'.
Proof.
  intros Hq Hcount. rewrite Add_consistent_unfold by done.
  destruct (_ && _); [by eauto|].
  destruct (checkTxLocked t q) as [err|] eqn:Hcheck; [by eauto|].
  apply checkTxLocked_None in Hcheck as [_ Hnone].
  assert (consistent (insertTx t (evicted q))) as Hq'.
  { apply insertTx_consistent; [by apply evicted_consistent| |done].
    by apply evicted_lookup_None. }
  rewrite (checkSizes_sizesAgree _ _ (consistent_sizesAgree _ Hq')). simpl.
  eauto.
Qed.

(** *** Traversals *)

Lemma iterate_inv {S : Type} (P : S → Prop) (cb : item → S → S * bool)
    (items : list item) (s : S) :
  P s → (∀ i s, i ∈ items → P s → P (cb i s).1) →
  P (btree.iterate cb items s).
Proof.
  revert s. induction items as [|i items IH]; simpl; intros s Hs Hstep; [done|].
  pose proof (Hstep i s ltac:(left) Hs) as Hi.
  destruct (cb i s) as [s' continue]. simpl in Hi.
  destruct continue; [|done].
  apply IH; [done|]. intros j s0 Hj. apply Hstep. by right.
Qed.

Lemma GetBatch_toRemove order limits t s0 :
  toRemove s0 = [] →
  ∀ x, x ∈ toRemove (btree.Descend t (visitBatch order limits) s0) → x ∈ t.
Proof.
  intros H0. unfold btree.Descend.
  apply (iterate_inv (λ s, ∀ x, x ∈ toRemove s → x ∈ t)).
  - rewrite H0. intros x Hx. by apply elem_of_nil in Hx.
  - intros i s Hi IH. unfold visitBatch.
    rewrite elem_of_reverse in Hi.
    destruct (fitsBatch _ _ _); simpl; try done.
    intros x Hx. apply elem_of_app in Hx as [Hx|Hx]; [by apply IH|].
    by apply list_elem_of_singleton in Hx as ->.
Qed.

Lemma GetBatch_consistent order force q :
  consistent q →
  ∃ b q', GetBatch order force q = Ret b q' ∧ consistent q'.
Proof.
  intros Hq. unfold GetBatch.
  destruct (_ && _); [by eauto|].
  set (s := btree.Descend _ _ _).
  destruct (removeTxsLocked_consistent (toRemove s) q Hq) as [-> Hq'].
  - apply ownItems_members; [done|]. by apply GetBatch_toRemove.
  - simpl. eauto.
Qed.

Lemma GetPrioritizedBatch_toRemove limits offset limit items :
  ∀ x, x ∈ (btree.iterate (visitPrioritized limits offset limit) items ([], [])).2 →
       x ∈ items.
Proof.
  apply (iterate_inv (λ s : list CheckedTransaction * list item,
                        ∀ x, x ∈ s.2 → x ∈ items)).
  - simpl. intros x Hx. by apply elem_of_nil in Hx.
  - intros i [b r] Hi IH. unfold visitPrioritized. simpl in IH.
    destruct (overLimit limits (tx i)); simpl.
    + intros x Hx. apply elem_of_app in Hx as [Hx|Hx]; [by apply IH|].
      by apply list_elem_of_singleton in Hx as ->.
    + destruct (Hash_Equal _ _); simpl; [done|].
      by destruct (limit <=? _).
Qed.

Lemma DescendLessOrEqual_toRemove limits offset limit t pivot :
  ∀ x, x ∈ (btree.DescendLessOrEqual t pivot
              (visitPrioritized limits offset limit) ([], [])).2 → x ∈ t.
Proof.
  intros x Hx. unfold btree.DescendLessOrEqual in Hx.
  destruct pivot as [p|]; apply GetPrioritizedBatch_toRemove in Hx;
    rewrite elem_of_reverse in Hx; [|done].
  by apply list_elem_of_filter in Hx as [_ Hx].
Qed.

Lemma GetPrioritizedBatch_consistent offset limit q :
  consistent q →
  ∃ b q', GetPrioritizedBatch offset limit q = Ret b q' ∧ consistent q'.
Proof.
  intros Hq. unfold GetPrioritizedBatch.
  assert (∀ pivot, ∃ b q',
    (let '(batch, toRemove) :=
       btree.DescendLessOrEqual (priorityIndex q) pivot
         (visitPrioritized (weightLimits q) offset limit) ([], []) in
     bind (removeTxsLocked toRemove q) (λ _ q0, Ret batch q0)) = Ret b q'
    ∧ consistent q') as Hdescend.
  { intros pivot.
    pose proof (DescendLessOrEqual_toRemove (weightLimits q) offset limit
                  (priorityIndex q) pivot) as Hrem.
    destruct (btree.DescendLessOrEqual _ _ _ _) as [b r]. simpl in Hrem.
    destruct (removeTxsLocked_consistent r q Hq) as [-> Hq'].
    - by apply ownItems_members.
    - simpl. eauto. }
  destruct offset as [h|]; [|apply Hdescend].
  destruct (transactions q !! h); [apply Hdescend | eauto].
Qed.

Lemma RemoveTxBatch_consistent batch q :
  consistent q →
  ∃ q', RemoveTxBatch batch q = Ret () q' ∧ consistent q'.
Proof.
  intros Hq. unfold RemoveTxBatch.
  destruct (removeTxsLocked_consistent
              (omap (λ txHash, transactions q !! txHash) batch) q Hq)
    as [-> Hq']; [|by eauto].
  apply ownItems_members; [done|].
  intros i Hi. apply list_elem_of_omap in Hi as (h & _ & Hi).
  by apply (cons_lookup q Hq) in Hi as [? _].
Qed.

Lemma Clear_consistent q : ∃ q', Clear q = Ret () q' ∧ consistent q'.
Proof.
  eexists. split; [done|]. apply (consistent_empty (maxTxPoolSize q) (weightLimits q)).
Qed.

(** *** Sequences of calls *)

Lemma step_consistent o q :
  consistent q → sourceOp o → ∃ q', step o q = Ret () q' ∧ consistent q'.
Proof.
  intros Hq Ho. destruct o; simpl in *.
  - destruct (Add_consistent t q Hq Ho) as (r & q' & -> & Hq'). simpl. eauto.
  - destruct (GetBatch_consistent order force q Hq) as (b & q' & -> & Hq').
    simpl. eauto.
  - destruct (GetPrioritizedBatch_consistent offset limit q Hq)
      as (b & q' & -> & Hq'). simpl. eauto.
  - eauto.
  - eauto.
  - by apply RemoveTxBatch_consistent.
  - eauto.
  - eauto.
  - eexists. split; [done|]. by destruct Hq.
  - eexists. split; [done|]. by destruct Hq.
  - apply Clear_consistent.
Qed.

Lemma run_consistent ops q :
  consistent q → Forall sourceOp ops →
  ∃ q', run ops q = Ret () q' ∧ consistent q'.
Proof.
  intros Hq Hops. revert q Hq.
  induction Hops as [|o ops Ho Hops IH]; simpl; intros q Hq; [by eauto|].
  destruct (step_consistent o q Hq Ho) as (q1 & -> & Hq1). simpl.
  by apply IH.
Qed.

(** * Scenarios and laws of the specification *)

(** ** Scenario S2: three transactions of priority 7, capacity 2 *)

(** C1, on the code: [Add] lowers [lowestPriority] only when the new
    priority is below it.  A new queue starts with [lowestPriority = 0], so
    after the first successful [Add], of a transaction of priority 7, the
    queue holds that transaction alone and [lowestPriority] is still 0, not
    7 as the invariant on [lowest_priority] asks. *)
Theorem lowestPriority_after_first_Add :
  ∃ q', Add S2_T1 (newPriorityQueue 2 ∅) = Ret None q' ∧
        priorityIndex q' = [mkItem S2_T1] ∧
        Priority S2_T1 = 7 ∧
        lowestPriority q' = 0.
Proof. eexists. split; [vm_compute; reflexivity|]. by repeat split. Qed.

(** C2, on the code: with capacity 2 and T1, T2 of priority 7 in the pool,
    [lowestPriority] is still 0, so [Add] of T3, again of priority 7, is not
    refused: it evicts T1, the least item of the index, and succeeds. *)
Theorem S2_third_Add_evicts :
  ∃ q2 q3,
    run [OpAdd S2_T1; OpAdd S2_T2] (newPriorityQueue 2 ∅) = Ret () q2 ∧
    lowestPriority q2 = 0 ∧
    Add S2_T3 q2 = Ret None q3 ∧
    priorityIndex q3 = [mkItem S2_T2; mkItem S2_T3] ∧
    isQueuedLocked (TxHash S2_T1) q3 = false.
Proof.
  eexists. eexists. split; [vm_compute; reflexivity|].
  split; [reflexivity|].
  split; [vm_compute; reflexivity|].
  split; [reflexivity|]. vm_compute. reflexivity.
Qed.

(** ** Scenario S5: batch weight packing *)

Lemma iterate_cons {S : Type} (cb : item → S → S * bool) i rest s :
  btree.iterate cb (i :: rest) s =
  if (cb i s).2 then btree.iterate cb rest (cb i s).1 else (cb i s).1.
Proof. simpl. by destruct (cb i s) as [s' []]. Qed.

(** The two orders in which the limits of S5 can be visited. *)
Lemma S5_orders order i :
  rangeOrder_ok order →
  order i (map_to_list S5_limits) = [(WeightSizeBytes, 100); (WeightCount, 10)] ∨
  order i (map_to_list S5_limits) = [(WeightCount, 10); (WeightSizeBytes, 100)].
Proof.
  intros Hok. specialize (Hok i (map_to_list S5_limits)).
  assert (map_to_list S5_limits = [(WeightSizeBytes, 100); (WeightCount, 10)])
    as E by (vm_compute; reflexivity).
  rewrite E in *. symmetry in Hok.
  by apply Permutation_length_2_inv in Hok.
Qed.

Ltac S5_visit order Hok i :=
  unfold visitBatch;
  destruct (S5_orders order i Hok) as [-> | ->];
  vm_compute; reflexivity.

(** C4.  With the limits [count: 10, size_bytes: 100] and the five
    transactions of S5 in the pool, [GetBatch(true)] returns the transaction
    of priority 50 and then the one of priority 20, whatever the order in
    which the limits are visited, and leaves the queue as it was. *)
Theorem S5_batch_weight_packing order q :
  rangeOrder_ok order →
  weightLimits q = S5_limits →
  priorityIndex q = S5_index →
  sizesAgree q →
  GetBatch order true q = Ret [S5_A; S5_D] q.
Proof.
  intros Hok Hlimits Hindex Hsizes. unfold GetBatch.
  rewrite andb_false_r, Hlimits, Hindex.
  unfold btree.Descend.
  change (reverse S5_index)
    with [mkItem S5_A; mkItem S5_B; mkItem S5_C; mkItem S5_D; mkItem S5_E].
  set (s0 := mkBatchState [] ((λ _, 0) <$> S5_limits) []).
  set (s1 := mkBatchState [S5_A]
               {[ WeightCount := 1; WeightSizeBytes := 90 ]} []).
  set (s2 := mkBatchState [S5_A; S5_D]
               {[ WeightCount := 2; WeightSizeBytes := 95 ]} []).
  assert (visitBatch order S5_limits (mkItem S5_A) s0 = (s1, true)) as HA
    by S5_visit order Hok (mkItem S5_A).
  assert (visitBatch order S5_limits (mkItem S5_B) s1 = (s1, true)) as HB
    by S5_visit order Hok (mkItem S5_B).
  assert (visitBatch order S5_limits (mkItem S5_C) s1 = (s1, true)) as HC
    by S5_visit order Hok (mkItem S5_C).
  assert (visitBatch order S5_limits (mkItem S5_D) s1 = (s2, true)) as HD
    by S5_visit order Hok (mkItem S5_D).
  assert (visitBatch order S5_limits (mkItem S5_E) s2 = (s2, false)) as HE
    by S5_visit order Hok (mkItem S5_E).
  rewrite iterate_cons, HA. cbv beta iota delta [fst snd].
  rewrite iterate_cons, HB. cbv beta iota delta [fst snd].
  rewrite iterate_cons, HC. cbv beta iota delta [fst snd].
  rewrite iterate_cons, HD. cbv beta iota delta [fst snd].
  rewrite iterate_cons, HE. cbv beta iota delta [fst snd].
  unfold s2, removeTxsLocked. simpl.
  by rewrite (checkSizes_sizesAgree _ _ Hsizes).
Qed.

Lemma S5_batch_weight_packing_witness :
  run S5_ops (newPriorityQueue 10 S5_limits) = Ret () S5_pool ∧
  GetBatch inOrder true S5_pool = Ret [S5_A; S5_D] S5_pool.
Proof.
  split; [vm_compute; reflexivity|].
  apply (S5_batch_weight_packing inOrder S5_pool).
  - intros i l. reflexivity.
  - vm_compute. reflexivity.
  - vm_compute. reflexivity.
  - split; vm_compute; reflexivity.
Defined.

(** ** Error atomicity of [Add] *)

(** C6.  When [Add] returns an error, whichever of the three it is, the
    queue it leaves is the queue it was given: both indices, the totals,
    [lowestPriority], the capacity and the limits. *)
Theorem Add_error_leaves_queue t q err q' :
  Add t q = Ret (Some err) q' → q' = q.
Proof.
  unfold Add.
  destruct (_ && _); [by intros [= _ ->]|].
  destruct (checkTxLocked t q); [by intros [= _ ->]|].
  destruct (if maxTxPoolSize q <=? rd (poolWeights q) WeightCount
            then match btree.Min (priorityIndex q) with
                 | Some lpi => removeTxsLocked [lpi] q
                 | None => Ret () q
                 end
            else Ret () q) as [u q1|msg]; simpl; [|done].
  by destruct (checkSizes "Add" (insertTx t q1)).
Qed.

Lemma Add_error_leaves_queue_witness :
  Add S3_T1 (newPriorityQueue 10 S3_limits)
    = Ret (Some ErrCallTooLarge) (newPriorityQueue 10 S3_limits) ∧
  newPriorityQueue 10 S3_limits = newPriorityQueue 10 S3_limits.
Proof.
  assert (Add S3_T1 (newPriorityQueue 10 S3_limits)
          = Ret (Some ErrCallTooLarge) (newPriorityQueue 10 S3_limits)) as H
    by (vm_compute; reflexivity).
  split; [exact H|].
  exact (Add_error_leaves_queue S3_T1 (newPriorityQueue 10 S3_limits)
           ErrCallTooLarge (newPriorityQueue 10 S3_limits) H).
Defined.

(** ** Frame of [Clear] *)

(** C10.  [Clear] empties the index and the map and resets the totals and
    [lowestPriority]; the capacity and the weight limits stay as they were,
    so the queue after [Clear] is a new queue under the same capacity and
    limits. *)
Theorem Clear_frame q :
  ∃ q', Clear q = Ret () q' ∧
        priorityIndex q' = [] ∧ transactions q' = ∅ ∧
        poolWeights q' = ∅ ∧ lowestPriority q' = 0 ∧
        weightLimits q' = weightLimits q ∧
        maxTxPoolSize q' = maxTxPoolSize q ∧
        q' = newPriorityQueue (maxTxPoolSize q) (weightLimits q).
Proof. eexists. split; [reflexivity|]. by repeat split. Qed.

(** ** Size consistency *)

(** C9.  From a new queue, under any sequence of public operations in which
    every transaction handed to [Add] counts for one, no call panics, and
    the map, the index and the count total have the same size after the
    sequence, hence after every call of it.  The count total is compared as
    the source compares it, as a [uint64]; it is the size itself as long as
    the size is below 2^64.  Distinct fingerprints need not be assumed:
    [Add] refuses a fingerprint that is in the map. *)
Theorem P1_sizes_agree ops maxPoolSize limits :
  Forall sourceOp ops →
  ∃ q, run ops (newPriorityQueue maxPoolSize limits) = Ret () q ∧
       size (transactions q) = btree.Len (priorityIndex q) ∧
       rd (poolWeights q) WeightCount
         = wrap64 (Z.of_nat (size (transactions q))) ∧
       (Z.of_nat (size (transactions q)) < 2 ^ 64 →
        rd (poolWeights q) WeightCount = Z.of_nat (size (transactions q))).
Proof.
  intros Hops.
  destruct (run_consistent ops _ (consistent_empty maxPoolSize limits) Hops)
    as (q & Hrun & Hq).
  exists q. split; [done|].
  destruct (consistent_sizesAgree q Hq) as [H1 H2].
  repeat split; [done|done|].
  intros Hlt. rewrite <- H2. apply wrap64_small. unfold is_uint64. lia.
Qed.

Lemma P1_sizes_agree_witness :
  Forall sourceOp P1_ops ∧
  ∃ q, run P1_ops (newPriorityQueue 2 S5_limits) = Ret () q ∧
       size (transactions q) = btree.Len (priorityIndex q) ∧
       rd (poolWeights q) WeightCount
         = wrap64 (Z.of_nat (size (transactions q))) ∧
       (Z.of_nat (size (transactions q)) < 2 ^ 64 →
        rd (poolWeights q) WeightCount = Z.of_nat (size (transactions q))).
Proof.
  assert (Forall sourceOp P1_ops) as H
    by (repeat constructor; vm_compute; reflexivity).
  split; [exact H|].
  exact (P1_sizes_agree P1_ops 2 S5_limits H).
Defined.

(** ** Capacity after [Add] *)

(** C5 as stated fails: three transactions are in the pool when the
    capacity is lowered from 3 to 1; the next [Add] succeeds, evicts one
    transaction and inserts one, and leaves three in a pool of capacity 1. *)
Lemma P5_fails_after_lowering :
  ∃ q q',
    run [OpAdd P5_A; OpAdd P5_B; OpAdd P5_C; OpUpdateMaxPoolSize 1]
        (newPriorityQueue 3 ∅) = Ret () q ∧
    Add P5_D q = Ret None q' ∧
    maxTxPoolSize q' = 1 ∧
    rd (poolWeights q') WeightCount = 3 ∧
    ¬ (rd (poolWeights q') WeightCount ≤ maxTxPoolSize q').
Proof.
  eexists. eexists. split; [vm_compute; reflexivity|].
  split; [vm_compute; reflexivity|].
  split; [reflexivity|]. split; [vm_compute; reflexivity|].
  vm_compute. intros H. by apply H.
Qed.

(** A pool of capacity 0 is full while it is empty: there is nothing to
    evict, and [Add] of a transaction of a positive priority inserts it.
    The amended claim is about capacities of at least one. *)
Lemma Add_capacity_zero :
  ∃ q', Add P5_A (newPriorityQueue 0 ∅) = Ret None q' ∧
        rd (poolWeights q') WeightCount = 1 ∧ maxTxPoolSize q' = 0.
Proof. eexists. split; [vm_compute; reflexivity|]. by split. Qed.

Lemma Add_success_inv t q q' :
  consistent q → Add t q = Ret None q' →
  q' = insertTx t (evicted q) ∧ sizesAgree q' ∧
  transactions q !! TxHash t = None.
Proof.
  intros Hq. rewrite Add_consistent_unfold by done.
  destruct (_ && _); [done|].
  destruct (checkTxLocked t q) eqn:Hcheck; [done|].
  apply checkTxLocked_None in Hcheck as [_ Hnone].
  destruct (checkSizes "Add" (insertTx t (evicted q))) as [u q1|] eqn:Hsizes;
    simpl; [|done].
  intros [= <-]. by apply checkSizes_Ret in Hsizes as [-> ?].
Qed.

Lemma evicted_frame q :
  maxTxPoolSize (evicted q) = maxTxPoolSize q ∧
  weightLimits (evicted q) = weightLimits q.
Proof.
  unfold evicted.
  destruct (maxTxPoolSize q <=? rd (poolWeights q) WeightCount); [|done].
  destruct (btree.Min (priorityIndex q)) as [lpi|]; [|done].
  simpl. by destruct (removeOne_frame q lpi) as (-> & -> & _).
Qed.

(** C5, amended.  In a consistent pool that is within its capacity, and
    whose capacity is at least one, a successful [Add] leaves the pool
    within its capacity. *)
Theorem Add_within_capacity t q q' :
  consistent q →
  1 ≤ maxTxPoolSize q →
  rd (poolWeights q) WeightCount ≤ maxTxPoolSize q →
  Add t q = Ret None q' →
  rd (poolWeights q') WeightCount ≤ maxTxPoolSize q'.
Proof.
  intros Hq Hmax Hcap Hadd.
  destruct (Add_success_inv t q q' Hq Hadd) as (-> & [_ Hsizes] & Hnone).
  rewrite <- Hsizes. simpl.
  rewrite map_size_insert_None by (by apply evicted_lookup_None).
  destruct (evicted_frame q) as [-> _].
  destruct (consistent_sizesAgree q Hq) as [Hlen Hcount].
  unfold evicted.
  destruct (Z.leb_spec (maxTxPoolSize q) (rd (poolWeights q) WeightCount))
    as [Hfull|Hroom].
  - assert (size (transactions q) ≠ 0%nat) as Hne.
    { intros H0. rewrite H0 in Hcount.
      change (wrap64 (Z.of_nat 0)) with 0 in Hcount. lia. }
    destruct (priorityIndex q) as [|lpi t0] eqn:Hidx;
      [simpl in Hlen; lia|].
    simpl. unfold removeOne.
    rewrite (consistent_member q lpi Hq) by (rewrite Hidx; left). simpl.
    rewrite map_size_delete_Some
      by (rewrite (consistent_member q lpi Hq); [eauto | rewrite Hidx; left]).
    rewrite Nat.succ_pred by done. lia.
  - rewrite Nat2Z.inj_succ, <- Z.add_1_r.
    rewrite <- wrap64_add_l, Hcount.
    pose proof (wrap64_range (Z.of_nat (size (transactions q)))) as Hr.
    rewrite Hcount in Hr. unfold is_uint64 in Hr.
    pose proof (wrap64_le (rd (poolWeights q) WeightCount + 1)). lia.
Qed.

Lemma Add_within_capacity_witness :
  consistent P5_pool ∧
  1 ≤ maxTxPoolSize P5_pool ∧
  rd (poolWeights P5_pool) WeightCount ≤ maxTxPoolSize P5_pool ∧
  Add P5_D P5_pool = Ret None P5_pool' ∧
  rd (poolWeights P5_pool') WeightCount ≤ maxTxPoolSize P5_pool'.
Proof.
  assert (consistent P5_pool) as H1.
  { destruct (run_consistent [OpAdd P5_A; OpAdd P5_B; OpAdd P5_C]
                (newPriorityQueue 3 ∅) (consistent_empty 3 ∅))
      as (q & Hrun & Hq).
    - repeat constructor.
    - unfold P5_pool. by rewrite Hrun. }
  assert (1 ≤ maxTxPoolSize P5_pool) as H2 by (vm_compute; by intros [=]).
  assert (rd (poolWeights P5_pool) WeightCount ≤ maxTxPoolSize P5_pool) as H3
    by (vm_compute; by intros [=]).
  assert (Add P5_D P5_pool = Ret None P5_pool') as H4
    by (vm_compute; reflexivity).
  refine (conj H1 (conj H2 (conj H3 (conj H4 _)))).
  exact (Add_within_capacity P5_D P5_pool P5_pool' H1 H2 H3 H4).
Defined.

(** ** [Add] followed by [RemoveTxBatch] *)

(** C8 as stated fails in a pool at capacity: [Add] evicts the lowest
    transaction before it inserts, and the removal of the new transaction
    does not bring the evicted one back. *)
Lemma L2_fails_at_capacity :
  ∃ q q1 q2,
    run [OpAdd P5_A] (newPriorityQueue 1 ∅) = Ret () q ∧
    Add P5_D q = Ret None q1 ∧
    RemoveTxBatch [TxHash P5_D] q1 = Ret () q2 ∧
    priorityIndex q = [mkItem P5_A] ∧
    priorityIndex q2 = [] ∧
    isQueuedLocked (TxHash P5_A) q = true ∧
    isQueuedLocked (TxHash P5_A) q2 = false.
Proof.
  eexists. eexists. eexists. split; [vm_compute; reflexivity|].
  split; [vm_compute; reflexivity|].
  split; [vm_compute; reflexivity|].
  repeat split; vm_compute; reflexivity.
Qed.

Lemma Delete_ReplaceOrInsert i t :
  freshIn i t → btree.Delete i (btree.ReplaceOrInsert i t) = t.
Proof.
  induction t as [|x t IH]; simpl; intros Hf.
  - by rewrite Less_irrefl.
  - apply freshIn_cons in Hf as [Hx Ht].
    destruct (Less i x) eqn:Hix; simpl.
    + by rewrite Less_irrefl.
    + rewrite (Less_hash_ne i x) by (done || by apply not_eq_sym).
      simpl. rewrite Hix, (Less_hash_ne i x) by (done || by apply not_eq_sym).
      by rewrite IH.
Qed.

Lemma sub_addWeights_rd m weights k :
  rd m k = wrap64 (rd m k) →
  rd (subWeights (addWeights m weights) weights) k = rd m k.
Proof.
  intros Hm. rewrite subWeights_rd, addWeights_rd.
  destruct (weights !! k) as [v|]; [|done].
  rewrite wrap64_sub_l. by replace (rd m k + v - v) with (rd m k) by lia.
Qed.

(** C8, amended.  In a consistent pool that is below its capacity, a
    successful [Add] followed by [RemoveTxBatch] of the hash of the new
    transaction gives back the index, the map, every total of the pool
    weights, the capacity and the limits; [lowestPriority] is recomputed
    from the least item of the index. *)
Theorem Add_RemoveTxBatch_identity t q q1 :
  consistent q →
  rd (poolWeights q) WeightCount < maxTxPoolSize q →
  Add t q = Ret None q1 →
  ∃ q2, RemoveTxBatch [TxHash t] q1 = Ret () q2 ∧
        priorityIndex q2 = priorityIndex q ∧
        transactions q2 = transactions q ∧
        (∀ k, rd (poolWeights q2) k = rd (poolWeights q) k) ∧
        maxTxPoolSize q2 = maxTxPoolSize q ∧
        weightLimits q2 = weightLimits q ∧
        lowestPriority q2 =
          match btree.Min (priorityIndex q) with
          | Some lpi => Priority (tx lpi)
          | None => 0
          end.
Proof.
  intros Hq Hroom Hadd.
  destruct (Add_success_inv t q q1 Hq Hadd) as (-> & _ & Hnone).
  assert (evicted q = q) as ->.
  { unfold evicted.
    destruct (Z.leb_spec (maxTxPoolSize q) (rd (poolWeights q) WeightCount));
      [lia|done]. }
  assert (freshIn (mkItem t) (priorityIndex q)) as Hfresh.
  { intros x Hx Heq. simpl in Heq.
    rewrite <- Heq, (consistent_member q x Hq Hx) in Hnone. done. }
  assert (∀ k, rd (subWeights (addWeights (poolWeights q) (Weights t))
                              (Weights t)) k = rd (poolWeights q) k) as Hw.
  { intros k. apply sub_addWeights_rd.
    by rewrite (cons_weights q Hq), wrap64_idemp. }
  unfold RemoveTxBatch. rewrite removeTxsLocked_unfold. simpl.
  rewrite lookup_insert_eq. simpl.
  unfold removeOne. simpl. rewrite lookup_insert_eq.
  rewrite Delete_ReplaceOrInsert by done.
  rewrite delete_insert_eq, delete_id by done.
  eexists. split.
  - apply checkSizes_sizesAgree.
    destruct (consistent_sizesAgree q Hq) as [H1 H2].
    split; simpl; [done|]. by rewrite Hw.
  - unfold recomputed. simpl. repeat split; try done.
Qed.

Lemma Add_RemoveTxBatch_identity_witness :
  consistent L2_pool ∧
  rd (poolWeights L2_pool) WeightCount < maxTxPoolSize L2_pool ∧
  Add P5_B L2_pool = Ret None L2_pool' ∧
  ∃ q2, RemoveTxBatch [TxHash P5_B] L2_pool' = Ret () q2 ∧
        priorityIndex q2 = priorityIndex L2_pool ∧
        transactions q2 = transactions L2_pool ∧
        (∀ k, rd (poolWeights q2) k = rd (poolWeights L2_pool) k) ∧
        maxTxPoolSize q2 = maxTxPoolSize L2_pool ∧
        weightLimits q2 = weightLimits L2_pool ∧
        lowestPriority q2 =
          match btree.Min (priorityIndex L2_pool) with
          | Some lpi => Priority (tx lpi)
          | None => 0
          end.
Proof.
  assert (consistent L2_pool) as H1.
  { destruct (run_consistent [OpAdd P5_A; OpAdd P5_C]
                (newPriorityQueue 3 ∅) (consistent_empty 3 ∅))
      as (q & Hrun & Hq).
    - repeat constructor.
    - unfold L2_pool. by rewrite Hrun. }
  assert (rd (poolWeights L2_pool) WeightCount < maxTxPoolSize L2_pool) as H2
    by (vm_compute; reflexivity).
  assert (Add P5_B L2_pool = Ret None L2_pool') as H3
    by (vm_compute; reflexivity).
  refine (conj H1 (conj H2 (conj H3 _))).
  exact (Add_RemoveTxBatch_identity P5_B L2_pool L2_pool' H1 H2 H3).
Defined.

(** ** Capacity of a batch *)

(** C3, on the code: the test [batchWeight+txW > limit] is made on the
    wrapped sum.  Under the limit 2^64 - 1 on consensus messages, two
    transactions of weight 2^63 each both pass it, the second one because
    2^63 + 2^63 wraps to 0, and the batch weighs 2^64, above the limit.
    The map of limits has a single entry, so there is one order to visit
    it in. *)
Theorem GetBatch_capacity_wraps :
  ∃ q q',
    run [OpAdd L4_A; OpAdd L4_B] (newPriorityQueue 10 L4_limits) = Ret () q ∧
    GetBatch inOrder true q = Ret [L4_A; L4_B] q' ∧
    L4_limits !! WeightConsensusMessages = Some (2 ^ 64 - 1) ∧
    TxWeight L4_A WeightConsensusMessages
      + TxWeight L4_B WeightConsensusMessages = 2 ^ 64.
Proof.
  eexists. eexists. split; [vm_compute; reflexivity|].
  split; [vm_compute; reflexivity|].
  split; vm_compute; reflexivity.
Qed.

(** ** The prioritized listing *)

(** C7, on the code: the callback appends the transaction before it
    compares the length of the batch with [limit], so with [limit = 0] the
    listing holds one transaction, the one of the highest priority. *)
Theorem GetPrioritizedBatch_limit_zero :
  ∃ q q',
    run [OpAdd P5_A; OpAdd P5_B] (newPriorityQueue 3 ∅) = Ret () q ∧
    GetPrioritizedBatch None 0 q = Ret [P5_B] q' ∧
    length [P5_B] = 1%nat.
Proof.
  eexists. eexists. split; [vm_compute; reflexivity|].
  split; [vm_compute; reflexivity|]. reflexivity.
Qed.

(** *** The listing at a positive limit

    Apart from [limit = 0], the listing is bounded by [limit], and it is in
    descending order of priority. *)

Lemma sortedIndex_filter (P : item → Prop) `{∀ x, Decision (P x)} t :
  sortedIndex t → sortedIndex (filter P t).
Proof.
  induction t as [|x t IH]; intros Hs; [done|].
  apply sortedIndex_inv in Hs as [Ht Hx]. rewrite filter_cons.
  destruct (decide (P x)); [|by apply IH].
  constructor; [by apply IH|].
  rewrite Forall_forall in Hx. apply Forall_forall. intros y Hy.
  apply list_elem_of_filter in Hy as [_ Hy]. by apply Hx.
Qed.

Lemma sortedIndex_reverse t : sortedIndex t → descending (reverse t).
Proof.
  induction t as [|x t IH]; intros Hs; [constructor|].
  apply sortedIndex_inv in Hs as [Ht Hx]. rewrite reverse_cons.
  apply StronglySorted_app_2; [|by apply IH|repeat constructor].
  intros y x' Hy Hx'. apply list_elem_of_singleton in Hx' as ->.
  rewrite elem_of_reverse in Hy. rewrite Forall_forall in Hx. by apply Hx.
Qed.

Lemma visited_descending t pivot :
  sortedIndex t →
  descending (match pivot with
              | None => reverse t
              | Some p => reverse (filter (λ x, Less p x = false) t)
              end).
Proof.
  intros Hs. destruct pivot; apply sortedIndex_reverse; [|done].
  by apply sortedIndex_filter.
Qed.

Lemma visitPrioritized_byPriority limits offset limit items b0 r0 :
  descending items → byPriority b0 →
  (∀ t i, t ∈ b0 → i ∈ items → Priority (tx i) ≤ Priority t) →
  byPriority (btree.iterate (visitPrioritized limits offset limit) items (b0, r0)).1.
Proof.
  revert b0 r0. induction items as [|i items IH]; simpl; intros b0 r0 Hd Hb Hle;
    [done|].
  apply StronglySorted_cons in Hd as [Hi Hd]. rewrite Forall_forall in Hi.
  assert (byPriority (b0 ++ [tx i])) as Hb'.
  { apply StronglySorted_app_2; [|done|repeat constructor].
    intros t t' Ht Ht'. apply list_elem_of_singleton in Ht' as ->.
    apply Hle; [done|left]. }
  assert (∀ t j, t ∈ b0 ++ [tx i] → j ∈ items → Priority (tx j) ≤ Priority t)
    as Hle'.
  { intros t j Ht Hj. apply elem_of_app in Ht as [Ht|Ht].
    - apply Hle; [done|by right].
    - apply list_elem_of_singleton in Ht as ->. by apply Less_Priority, Hi. }
  assert (∀ t j, t ∈ b0 → j ∈ items → Priority (tx j) ≤ Priority t) as Hle0.
  { intros t j Ht Hj. apply Hle; [done|by right]. }
  destruct (overLimit limits (tx i)); [by apply IH|].
  destruct (Hash_Equal _ _); [by apply IH|].
  destruct (limit <=? _); [done|by apply IH].
Qed.

(** While the descent goes on, the batch is shorter than the limit. *)
Lemma visitPrioritized_length limits offset limit items b0 r0 :
  0 ≤ limit < 2 ^ 32 →
  Z.of_nat (length b0) < Z.max 1 limit →
  Z.of_nat (length (btree.iterate (visitPrioritized limits offset limit)
                      items (b0, r0)).1) ≤ Z.max 1 limit.
Proof.
  intros Hlimit. revert b0 r0.
  induction items as [|i items IH]; simpl; intros b0 r0 Hlen; [lia|].
  destruct (overLimit limits (tx i)); [by apply IH|].
  destruct (Hash_Equal _ _); [by apply IH|].
  rewrite length_app. simpl.
  assert (wrap32 (Z.of_nat (length b0 + 1)) = Z.of_nat (length b0 + 1)) as ->
    by (unfold wrap32; apply Z.mod_small; lia).
  destruct (Z.leb_spec limit (Z.of_nat (length b0 + 1))); simpl.
  - rewrite length_app. simpl. lia.
  - apply IH. rewrite length_app. simpl. lia.
Qed.

(** X21.  [GetPrioritizedBatch] with a limit that is a [uint32]: the listing is
    in descending order of priority and holds at most [limit]
    transactions, one when [limit] is 0. *)
Lemma GetPrioritizedBatch_bound_order offset limit q b q' :
  sortedIndex (priorityIndex q) →
  0 ≤ limit < 2 ^ 32 →
  GetPrioritizedBatch offset limit q = Ret b q' →
  Z.of_nat (length b) ≤ Z.max 1 limit ∧ byPriority b.
Proof.
  intros Hs Hlimit. unfold GetPrioritizedBatch.
  assert (∀ pivot,
    (let '(batch, toRemove) :=
       btree.DescendLessOrEqual (priorityIndex q) pivot
         (visitPrioritized (weightLimits q) offset limit) ([], []) in
     bind (removeTxsLocked toRemove q) (λ _ q0, Ret batch q0)) = Ret b q' →
    Z.of_nat (length b) ≤ Z.max 1 limit ∧ byPriority b) as Hdescend.
  { intros pivot.
    pose proof (visited_descending (priorityIndex q) pivot Hs) as Hd.
    set (items := match pivot with
                  | None => reverse (priorityIndex q)
                  | Some p =>
                      reverse (filter (λ x, Less p x = false) (priorityIndex q))
                  end) in Hd.
    assert (btree.DescendLessOrEqual (priorityIndex q) pivot
              (visitPrioritized (weightLimits q) offset limit) ([], [])
            = btree.iterate (visitPrioritized (weightLimits q) offset limit)
                items ([], [])) as -> by (by destruct pivot).
    assert (Z.of_nat (length (@nil CheckedTransaction)) < Z.max 1 limit)
      as Hlen0 by (simpl; lia).
    pose proof (visitPrioritized_length (weightLimits q) offset limit
                  items [] [] Hlimit Hlen0) as Hlen.
    assert (∀ t i, t ∈ @nil CheckedTransaction → i ∈ items →
                   Priority (tx i) ≤ Priority t) as Hle0
      by (by intros t i Ht; apply elem_of_nil in Ht).
    pose proof (visitPrioritized_byPriority (weightLimits q) offset limit
                  items [] [] Hd (SSorted_nil _) Hle0) as Hord.
    destruct (btree.iterate _ _ _) as [batch rem]. simpl in *.
    destruct (removeTxsLocked rem q); simpl; [|done].
    by intros [= <- _]. }
  destruct offset as [h|]; [|apply Hdescend].
  destruct (transactions q !! h); [apply Hdescend|].
  intros [= <- _]. split; [simpl; lia|constructor].
Qed.

(** *** The capacity of a batch without wrap-around

    When every limit is below 2^63 no sum of the descent wraps, and the
    batch of [GetBatch] is within every limit, in whatever order the limits
    are visited. *)

Lemma batchTotal_snoc d b t :
  batchTotal d (b ++ [t]) = batchTotal d b + TxWeight t d.
Proof. induction b as [|x b IH]; simpl; [lia|]. rewrite IH. lia. Qed.

Lemma addKnownWeights_lookup m weights k :
  addKnownWeights m weights !! k =
  match m !! k with
  | Some old =>
      Some (match weights !! k with
            | Some v => wrap64 (old + v)
            | None => old
            end)
  | None => None
  end.
Proof.
  unfold addKnownWeights.
  apply (map_fold_weak_ind (λ r w,
    r !! k = match m !! k with
             | Some old => Some (match w !! k with
                                 | Some v => wrap64 (old + v)
                                 | None => old
                                 end)
             | None => None
             end)).
  - rewrite lookup_empty. by destruct (m !! k).
  - intros j x w r Hj IH.
    destruct (decide (j = k)) as [->|Hne].
    + rewrite Hj in IH. rewrite lookup_insert_eq, IH.
      destruct (m !! k) as [old|]; [|done]. by rewrite lookup_insert_eq.
    + rewrite (lookup_insert_ne w) by done.
      destruct (r !! j); [|done]. by rewrite lookup_insert_ne.
Qed.

Lemma fitsBatch_Fits limits bw i :
  fitsBatch limits bw i = Fits →
  ∀ w l, (w, l) ∈ limits →
    TxWeight (tx i) w ≤ l ∧ wrap64 (rd bw w + TxWeight (tx i) w) ≤ l.
Proof.
  induction limits as [|[w0 l0] limits IH]; simpl; intros Hfit w l Hin;
    [by apply elem_of_nil in Hin|].
  destruct (Z.ltb_spec l0 (TxWeight (tx i) w0)); [done|].
  destruct (_ <? rd minWeights w0); [done|].
  destruct (Z.ltb_spec l0 (wrap64 (rd bw w0 + TxWeight (tx i) w0))); [done|].
  apply elem_of_cons in Hin as [[= -> ->]|Hin]; [done|by apply IH].
Qed.

Lemma visitBatch_withinLimits order limits i s :
  rangeOrder_ok order →
  (∀ w l, limits !! w = Some l → 0 ≤ l < 2 ^ 63) →
  (∀ w, 0 ≤ TxWeight (tx i) w) →
  withinLimits limits s →
  withinLimits limits (visitBatch order limits i s).1.
Proof.
  intros Hok Hsmall Hpos Hs. unfold visitBatch.
  destruct (fitsBatch _ _ _) eqn:Hfit; simpl; try done.
  intros w l Hw. simpl.
  destruct (Hs w l Hw) as [Hbw Htot].
  destruct (fitsBatch_Fits _ _ _ Hfit w l) as [Htx Hsum].
  { rewrite (Hok i (map_to_list limits)). by apply elem_of_map_to_list. }
  pose proof (Hsmall w l Hw) as Hl. pose proof (Hpos w) as Hp.
  unfold rd in Hsum. rewrite Hbw in Hsum. simpl in Hsum.
  rewrite wrap64_small in Hsum by (unfold is_uint64; lia).
  rewrite batchTotal_snoc, addKnownWeights_lookup, Hbw.
  split; [|lia]. f_equal.
  unfold TxWeight, Weights, rd in *.
  destruct (tx_weights (tx i) !! w) as [v|]; simpl in *; [|lia].
  apply wrap64_small. unfold is_uint64. lia.
Qed.

(** X20.  When every weight limit is below 2^63 and the weights of the
    queued transactions are not negative, the batch of [GetBatch] weighs at
    most the limit in every limited dimension, in whatever order the limits
    are visited. *)
Lemma GetBatch_capacity_no_wrap order force q b q' d limit :
  rangeOrder_ok order →
  (∀ w l, weightLimits q !! w = Some l → 0 ≤ l < 2 ^ 63) →
  (∀ i w, i ∈ priorityIndex q → 0 ≤ TxWeight (tx i) w) →
  weightLimits q !! d = Some limit →
  GetBatch order force q = Ret b q' →
  batchTotal d b ≤ limit.
Proof.
  intros Hok Hsmall Hpos Hd. unfold GetBatch.
  destruct (_ && _).
  { intros [= <- _]. simpl. specialize (Hsmall d limit Hd). lia. }
  set (s0 := mkBatchState [] ((λ _, 0) <$> weightLimits q) []).
  assert (withinLimits (weightLimits q)
            (btree.Descend (priorityIndex q)
               (visitBatch order (weightLimits q)) s0)) as Hs.
  { unfold btree.Descend. apply iterate_inv.
    - intros w l Hw. simpl. rewrite lookup_fmap, Hw. simpl.
      specialize (Hsmall w l Hw). split; [done|lia].
    - intros i s Hi. rewrite elem_of_reverse in Hi.
      apply visitBatch_withinLimits; auto. }
  destruct (removeTxsLocked _ q); simpl; [|done].
  intros [= <- _]. by destruct (Hs d limit Hd) as [_ [_ ?]].
Qed.

(** * Further properties of the operations *)

(** ** The order of the items *)

(** X1.  [Less] is a strict total order on the keys (priority, hash): it is
    irreflexive and transitive, two items that it does not order have the
    same priority and the same hash, and an item of a lower priority is
    less whatever the hashes are. *)
Theorem Less_strict_total_order :
  (∀ a, Less a a = false) ∧
  (∀ a b c, Less a b = true → Less b c = true → Less a c = true) ∧
  (∀ a b, Less a b = false → Less b a = false →
          Priority (tx a) = Priority (tx b) ∧ TxHash (tx a) = TxHash (tx b)) ∧
  (∀ a b, Priority (tx a) < Priority (tx b) → Less a b = true).
Proof.
  split; [apply Less_irrefl|]. split; [apply Less_trans|].
  split; [apply Less_total|].
  intros a b Hlt. unfold Less.
  destruct (Z.eqb_spec (Priority (tx a)) (Priority (tx b))); simpl; [lia|].
  by apply Z.ltb_lt.
Qed.

(** ** Removal *)

Lemma removeOne_transactions q i :
  transactions (removeOne q i) = delete (TxHash (tx i)) (transactions q).
Proof.
  unfold removeOne.
  destruct (transactions q !! TxHash (tx i)) eqn:Hm; [done|].
  symmetry. by apply delete_id.
Qed.

Lemma foldl_removeOne_transactions items q h :
  transactions (foldl removeOne q items) !! h =
  if decide (h ∈ (λ i, TxHash (tx i)) <$> items) then None
  else transactions q !! h.
Proof.
  revert q. induction items as [|i items IH]; intros q.
  - cbn [foldl fmap list_fmap]. rewrite decide_False; [done|]. apply not_elem_of_nil.
  - rewrite fmap_cons. simpl foldl. rewrite IH, removeOne_transactions.
    destruct (decide (h ∈ (λ i0, TxHash (tx i0)) <$> items)) as [Hin|Hin].
    + rewrite decide_True; [done|]. by right.
    + destruct (decide (h = TxHash (tx i))) as [Heq|Hne].
      * rewrite decide_True; [|rewrite Heq; left].
        rewrite Heq. apply lookup_delete_eq.
      * rewrite lookup_delete_ne by done. rewrite decide_False; [done|].
        intros Hc. apply elem_of_cons in Hc as [?|?]; done.
Qed.

(** The hashes of the items [RemoveTxBatch] looks up are the hashes of the
    batch that are queued. *)
Lemma RemoveTxBatch_items q (batch : list Hash) h :
  consistent q →
  h ∈ (λ i, TxHash (tx i)) <$> omap (λ txHash, transactions q !! txHash) batch ↔
  h ∈ batch ∧ is_Some (transactions q !! h).
Proof.
  intros Hq. rewrite list_elem_of_fmap. split.
  - intros (i & -> & Hi). apply list_elem_of_omap in Hi as (h' & Hh' & Hi).
    apply (cons_lookup q Hq) in Hi as Hi'. destruct Hi' as [_ <-].
    split; [done|]. by rewrite Hi.
  - intros [Hin [i Hi]]. exists i. split.
    + by apply (cons_lookup q Hq) in Hi as [_ <-].
    + apply list_elem_of_omap. eauto.
Qed.

(** X2.  [RemoveTxBatch] on a consistent queue does not panic; afterwards
    exactly the hashes of the batch are gone from the map and from the
    index, every other transaction is where it was, and the capacity and
    the limits are untouched.  Hashes that are not queued, and hashes that
    occur twice in the batch, make no difference. *)
Theorem RemoveTxBatch_removes_exactly (batch : list Hash) q :
  consistent q →
  ∃ q', RemoveTxBatch batch q = Ret () q' ∧
        (∀ h, transactions q' !! h =
              if decide (h ∈ batch) then None else transactions q !! h) ∧
        (∀ x, x ∈ priorityIndex q' ↔
              x ∈ priorityIndex q ∧ TxHash (tx x) ∉ batch) ∧
        maxTxPoolSize q' = maxTxPoolSize q ∧
        weightLimits q' = weightLimits q.
Proof.
  intros Hq. unfold RemoveTxBatch.
  set (items := omap (λ txHash, transactions q !! txHash) batch).
  destruct (removeTxsLocked_consistent items q Hq) as [Hrun Hq'].
  { apply ownItems_members; [done|]. intros i Hi.
    apply list_elem_of_omap in Hi as (h & _ & Hi).
    by apply (cons_lookup q Hq) in Hi as [? _]. }
  eexists. split; [exact Hrun|].
  assert (∀ h, transactions (foldl removeOne q items) !! h =
               if decide (h ∈ batch) then None else transactions q !! h) as Hmap.
  { intros h. rewrite foldl_removeOne_transactions.
    pose proof (RemoveTxBatch_items q batch h Hq) as Hitems. fold items in Hitems.
    destruct (decide (h ∈ batch)) as [Hin|Hin].
    - destruct (transactions q !! h) as [i|] eqn:Hh.
      + rewrite decide_True; [done|]. apply Hitems. eauto.
      + by destruct (decide _).
    - rewrite decide_False; [done|]. intros Hc. apply Hitems in Hc as [? _]. done. }
  split; [exact Hmap|]. split.
  - intros x. simpl. split.
    + intros Hx. pose proof (consistent_member _ x Hq' Hx) as Hm. simpl in Hm.
      rewrite Hmap in Hm. destruct (decide (TxHash (tx x) ∈ batch)); [done|].
      split; [|done]. by apply (cons_lookup q Hq) in Hm as [? _].
    + intros [Hx Hn]. apply (cons_lookup _ Hq' (TxHash (tx x)) x). simpl.
      rewrite Hmap, decide_False by done. by apply consistent_member.
  - simpl. by destruct (foldl_removeOne_frame items q) as (-> & -> & _).
Qed.

Lemma RemoveTxBatch_removes_exactly_witness :
  consistent P5_pool ∧
  ∃ q', RemoveTxBatch [[2%N]; [9%N]; [2%N]] P5_pool = Ret () q' ∧
        (∀ h, transactions q' !! h =
              if decide (h ∈ [[2%N]; [9%N]; [2%N]]) then None
              else transactions P5_pool !! h) ∧
        (∀ x, x ∈ priorityIndex q' ↔
              x ∈ priorityIndex P5_pool ∧
              TxHash (tx x) ∉ [[2%N]; [9%N]; [2%N]]) ∧
        maxTxPoolSize q' = maxTxPoolSize P5_pool ∧
        weightLimits q' = weightLimits P5_pool.
Proof.
  assert (consistent P5_pool) as H1.
  { destruct (run_consistent [OpAdd P5_A; OpAdd P5_B; OpAdd P5_C]
                (newPriorityQueue 3 ∅) (consistent_empty 3 ∅))
      as (q & Hrun & Hq).
    - repeat constructor.
    - unfold P5_pool. by rewrite Hrun. }
  refine (conj H1 _).
  exact (RemoveTxBatch_removes_exactly [[2%N]; [9%N]; [2%N]] P5_pool H1).
Defined.

Lemma omap_all_None {A B : Type} (f : A → option B) (l : list A) :
  (∀ x, x ∈ l → f x = None) → omap f l = [].
Proof.
  induction l as [|x l IH]; intros H; [done|].
  simpl. rewrite H by left. apply IH. intros y Hy. apply H. by right.
Qed.

(** X3.  [RemoveTxBatch] is idempotent: on the queue a first call leaves,
    a second call with the same batch finds nothing to remove and changes
    nothing, [lowestPriority] included. *)
Theorem RemoveTxBatch_idempotent (batch : list Hash) q q1 :
  consistent q →
  RemoveTxBatch batch q = Ret () q1 →
  RemoveTxBatch batch q1 = Ret () q1.
Proof.
  intros Hq Hrun.
  unfold RemoveTxBatch in Hrun.
  set (items := omap (λ txHash, transactions q !! txHash) batch) in Hrun.
  destruct (removeTxsLocked_consistent items q Hq) as [Hrun' Hq1].
  { apply ownItems_members; [done|]. intros i Hi.
    apply list_elem_of_omap in Hi as (h & _ & Hi).
    by apply (cons_lookup q Hq) in Hi as [? _]. }
  rewrite Hrun' in Hrun. injection Hrun as <-.
  assert (omap (λ txHash,
             transactions (set_lowestPriority
                             (recomputed items (foldl removeOne q items))
                             (foldl removeOne q items)) !! txHash) batch = [])
    as Hnone.
  { simpl. pose proof (RemoveTxBatch_items q batch) as Hitems. fold items in Hitems.
    assert (∀ h, h ∈ batch →
                 transactions (foldl removeOne q items) !! h = None) as Hgone.
    { intros h Hin. rewrite foldl_removeOne_transactions.
      destruct (decide _) as [|Hn]; [done|].
      destruct (transactions q !! h) eqn:Hh; [|done].
      exfalso. apply Hn, Hitems; eauto. }
    by apply omap_all_None. }
  unfold RemoveTxBatch. rewrite Hnone, removeTxsLocked_unfold. simpl.
  unfold recomputed at 1. simpl.
  by apply checkSizes_sizesAgree, consistent_sizesAgree.
Qed.

Lemma P5_pool_consistent : consistent P5_pool.
Proof.
  destruct (run_consistent [OpAdd P5_A; OpAdd P5_B; OpAdd P5_C]
              (newPriorityQueue 3 ∅) (consistent_empty 3 ∅))
    as (q & Hrun & Hq).
  - repeat constructor.
  - unfold P5_pool. by rewrite Hrun.
Qed.

Lemma RemoveTxBatch_idempotent_witness :
  consistent P5_pool ∧
  RemoveTxBatch [[2%N]; [9%N]]
    P5_pool = Ret () (match RemoveTxBatch [[2%N]; [9%N]] P5_pool with
                      | Ret _ q => q
                      | Panic _ => P5_pool
                      end) ∧
  RemoveTxBatch [[2%N]; [9%N]]
    (match RemoveTxBatch [[2%N]; [9%N]] P5_pool with
     | Ret _ q => q
     | Panic _ => P5_pool
     end)
  = Ret () (match RemoveTxBatch [[2%N]; [9%N]] P5_pool with
            | Ret _ q => q
            | Panic _ => P5_pool
            end).
Proof.
  pose proof P5_pool_consistent as H1.
  assert (RemoveTxBatch [[2%N]; [9%N]] P5_pool
          = Ret () (match RemoveTxBatch [[2%N]; [9%N]] P5_pool with
                    | Ret _ q => q
                    | Panic _ => P5_pool
                    end)) as H2 by (vm_compute; reflexivity).
  refine (conj H1 (conj H2 _)).
  exact (RemoveTxBatch_idempotent [[2%N]; [9%N]] P5_pool _ H1 H2).
Defined.

(** X4.  A [RemoveTxBatch] that finds at least one of its hashes queued
    recomputes [lowestPriority]: afterwards it is the priority of the least
    item of the index, hence the lowest priority in the pool, and 0 when
    the pool is empty. *)
Theorem RemoveTxBatch_recomputes_lowestPriority (batch : list Hash) q q' h :
  consistent q →
  h ∈ batch → is_Some (transactions q !! h) →
  RemoveTxBatch batch q = Ret () q' →
  lowestPriority q' = match btree.Min (priorityIndex q') with
                      | Some lpi => Priority (tx lpi)
                      | None => 0
                      end ∧
  (priorityIndex q' = [] → lowestPriority q' = 0) ∧
  (∀ x, x ∈ priorityIndex q' → lowestPriority q' ≤ Priority (tx x)).
Proof.
  intros Hq Hin [i Hi] Hrun. unfold RemoveTxBatch in Hrun.
  set (items := omap (λ txHash, transactions q !! txHash) batch) in Hrun.
  destruct (removeTxsLocked_consistent items q Hq) as [Hrun' Hq1].
  { apply ownItems_members; [done|]. intros j Hj.
    apply list_elem_of_omap in Hj as (h' & _ & Hj).
    by apply (cons_lookup q Hq) in Hj as [? _]. }
  rewrite Hrun' in Hrun. injection Hrun as <-.
  assert (i ∈ items) as Hitems by (apply list_elem_of_omap; eauto).
  assert (recomputed items (foldl removeOne q items)
          = match btree.Min (priorityIndex (foldl removeOne q items)) with
            | Some lpi => Priority (tx lpi)
            | None => 0
            end) as Hrec.
  { unfold recomputed. rewrite bool_decide_true; [done|].
    destruct items; [by apply elem_of_nil in Hitems|simpl; lia]. }
  simpl. split; [done|]. split.
  - intros Hnil. by rewrite Hrec, Hnil.
  - intros x Hx. rewrite Hrec.
    destruct (btree.Min _) as [lpi|] eqn:Hmin.
    + eapply Min_least; [|exact Hmin|exact Hx]. apply Hq1.
    + by destruct (priorityIndex (foldl removeOne q items));
        [apply elem_of_nil in Hx|].
Qed.

Lemma RemoveTxBatch_recomputes_lowestPriority_witness :
  consistent P5_pool ∧ [1%N] ∈ [[1%N]] ∧
  is_Some (transactions P5_pool !! [1%N]) ∧
  ∃ q', RemoveTxBatch [[1%N]] P5_pool = Ret () q' ∧ lowestPriority q' = 20.
Proof.
  pose proof P5_pool_consistent as H1.
  assert ([1%N] ∈ [[1%N]]) as H2 by (by left).
  assert (is_Some (transactions P5_pool !! [1%N])) as H3
    by (vm_compute; eauto).
  refine (conj H1 (conj H2 (conj H3 _))).
  eexists. split; [vm_compute; reflexivity|].
  destruct (RemoveTxBatch_recomputes_lowestPriority [[1%N]] P5_pool _ [1%N]
              H1 H2 H3 ltac:(vm_compute; reflexivity)) as [-> _].
  vm_compute. reflexivity.
Defined.

(** ** Admission *)

Lemma ReplaceOrInsert_elem_of i t x :
  x ∈ btree.ReplaceOrInsert i t → x = i ∨ x ∈ t.
Proof.
  induction t as [|y t IH]; simpl.
  - intros Hx. apply list_elem_of_singleton in Hx. by left.
  - destruct (Less i y).
    + intros Hx. apply elem_of_cons in Hx as [->|Hx]; [by left|by right].
    + destruct (Less y i).
      * intros Hx. apply elem_of_cons in Hx as [->|Hx]; [right; left|].
        destruct (IH Hx) as [->|?]; [by left|right; by right].
      * intros Hx. apply elem_of_cons in Hx as [->|Hx]; [by left|right; by right].
Qed.

Lemma ReplaceOrInsert_member i t : i ∈ btree.ReplaceOrInsert i t.
Proof.
  induction t as [|y t IH]; simpl; [left|].
  destruct (Less i y); [left|]. destruct (Less y i); [by right|left].
Qed.

Lemma lowestBound_recomputed items q :
  consistent q → ownItems q items → lowestBound q →
  lowestBound (set_lowestPriority (recomputed items (foldl removeOne q items))
                                  (foldl removeOne q items)).
Proof.
  intros Hq Ho Hb.
  pose proof (foldl_removeOne_consistent items q Hq Ho) as Hq1.
  unfold recomputed. destruct items as [|i items].
  - simpl. exact Hb.
  - rewrite bool_decide_true by (simpl; lia).
    set (q1 := foldl removeOne q (i :: items)) in *.
    intros x Hx. simpl in *.
    destruct (btree.Min (priorityIndex q1)) as [lpi|] eqn:Hmin.
    + eapply Min_least; [|exact Hmin|exact Hx]. apply Hq1.
    + by destruct (priorityIndex q1); [apply elem_of_nil in Hx|].
Qed.

Lemma lowestBound_evicted q :
  consistent q → lowestBound q → lowestBound (evicted q).
Proof.
  intros Hq Hb. unfold evicted.
  destruct (maxTxPoolSize q <=? rd (poolWeights q) WeightCount); [|done].
  destruct (btree.Min (priorityIndex q)) as [lpi|] eqn:Hmin; [|done].
  apply (lowestBound_recomputed [lpi] q Hq); [|done].
  apply ownItems_members; [done|]. intros i Hi.
  apply list_elem_of_singleton in Hi as ->. by apply Min_member.
Qed.

Lemma lowestBound_insertTx t q : lowestBound q → lowestBound (insertTx t q).
Proof.
  intros Hb x Hx. simpl in *.
  apply ReplaceOrInsert_elem_of in Hx as [->|Hx]; simpl.
  - destruct (Z.ltb_spec (Priority t) (lowestPriority q)); lia.
  - specialize (Hb x Hx).
    destruct (Z.ltb_spec (Priority t) (lowestPriority q)); lia.
Qed.

Lemma step_lowestBound o q q' :
  consistent q → lowestBound q → step o q = Ret () q' → lowestBound q'.
Proof.
  intros Hq Hb.
  destruct o as [t|order force|offset limit|known|n|hashes|h| |n|limits|];
    simpl.
  - rewrite Add_consistent_unfold by done.
    destruct (_ && _); [by intros [= <-]|].
    destruct (checkTxLocked t q); [by intros [= <-]|].
    destruct (checkSizes "Add" (insertTx t (evicted q))) as [u q1|] eqn:Hs;
      simpl; [|done].
    apply checkSizes_Ret in Hs as [-> _]. intros [= <-].
    by apply lowestBound_insertTx, lowestBound_evicted.
  - unfold GetBatch. destruct (_ && _); [by intros [= <-]|].
    set (s := btree.Descend _ _ _).
    destruct (removeTxsLocked_consistent (toRemove s) q Hq) as [-> _].
    { apply ownItems_members; [done|]. by apply GetBatch_toRemove. }
    simpl. intros [= <-]. apply lowestBound_recomputed; [done| |done].
    apply ownItems_members; [done|]. by apply GetBatch_toRemove.
  - unfold GetPrioritizedBatch.
    assert (∀ pivot,
      forget (let '(batch, toRemove) :=
                btree.DescendLessOrEqual (priorityIndex q) pivot
                  (visitPrioritized (weightLimits q) offset limit) ([], []) in
              bind (removeTxsLocked toRemove q) (λ _ q0, Ret batch q0))
      = Ret () q' → lowestBound q') as Hdescend.
    { intros pivot.
      pose proof (DescendLessOrEqual_toRemove (weightLimits q) offset limit
                    (priorityIndex q) pivot) as Hrem.
      destruct (btree.DescendLessOrEqual _ _ _ _) as [b r]. simpl in Hrem.
      pose proof (ownItems_members q r Hq Hrem) as Ho.
      destruct (removeTxsLocked_consistent r q Hq Ho) as [-> _].
      simpl. intros [= <-]. by apply lowestBound_recomputed. }
    destruct offset as [h|]; [|apply Hdescend].
    destruct (transactions q !! h); [apply Hdescend|by intros [= <-]].
  - by intros [= <-].
  - by intros [= <-].
  - unfold RemoveTxBatch.
    set (items := omap (λ txHash, transactions q !! txHash) hashes).
    assert (ownItems q items) as Ho.
    { apply ownItems_members; [done|]. intros i Hi.
      apply list_elem_of_omap in Hi as (h & _ & Hi).
      by apply (cons_lookup q Hq) in Hi as [? _]. }
    destruct (removeTxsLocked_consistent items q Hq Ho) as [-> _].
    intros [= <-]. by apply lowestBound_recomputed.
  - by intros [= <-].
  - by intros [= <-].
  - by intros [= <-].
  - by intros [= <-].
  - intros [= <-]. intros x Hx. by apply elem_of_nil in Hx.
Qed.

Lemma run_lowestBound ops q q' :
  consistent q → lowestBound q → Forall sourceOp ops →
  run ops q = Ret () q' → consistent q' ∧ lowestBound q'.
Proof.
  intros Hq Hb Hops. revert q Hq Hb.
  induction Hops as [|o ops Ho Hops IH]; simpl; intros q Hq Hb.
  - by intros [= <-].
  - destruct (step_consistent o q Hq Ho) as (q1 & Hstep & Hq1).
    rewrite Hstep. simpl. apply IH; [done|].
    by apply (step_lowestBound o q).
Qed.

(** X5.  From a new queue, whatever public operations are called,
    [lowestPriority] never exceeds the priority of a queued transaction:
    it is a lower bound of the priorities in the pool. *)
Theorem lowestPriority_lower_bound ops maxPoolSize limits q x :
  Forall sourceOp ops →
  run ops (newPriorityQueue maxPoolSize limits) = Ret () q →
  x ∈ priorityIndex q →
  lowestPriority q ≤ Priority (tx x).
Proof.
  intros Hops Hrun Hx.
  destruct (run_lowestBound ops _ q (consistent_empty maxPoolSize limits))
    as [_ Hb]; try done.
  - intros y Hy. by apply elem_of_nil in Hy.
  - by apply Hb.
Qed.

Lemma lowestPriority_lower_bound_witness :
  Forall sourceOp [OpAdd P5_A; OpAdd P5_B; OpAdd P5_C] ∧
  run [OpAdd P5_A; OpAdd P5_B; OpAdd P5_C] (newPriorityQueue 3 ∅)
    = Ret () P5_pool ∧
  mkItem P5_B ∈ priorityIndex P5_pool ∧
  lowestPriority P5_pool ≤ Priority (tx (mkItem P5_B)).
Proof.
  assert (Forall sourceOp [OpAdd P5_A; OpAdd P5_B; OpAdd P5_C]) as H1
    by (repeat constructor).
  assert (run [OpAdd P5_A; OpAdd P5_B; OpAdd P5_C] (newPriorityQueue 3 ∅)
          = Ret () P5_pool) as H2 by (vm_compute; reflexivity).
  assert (mkItem P5_B ∈ priorityIndex P5_pool) as H3
    by (vm_compute; right; left).
  refine (conj H1 (conj H2 (conj H3 _))).
  exact (lowestPriority_lower_bound _ 3 ∅ P5_pool (mkItem P5_B) H1 H2 H3).
Defined.

Lemma overLimit_true limits t :
  overLimit limits t = true ↔
  ∃ w l, limits !! w = Some l ∧ l < TxWeight t w.
Proof.
  unfold overLimit. rewrite existsb_exists. split.
  - intros ([w l] & Hin & Hlt). exists w, l.
    apply list_elem_of_In, elem_of_map_to_list in Hin.
    by apply Z.ltb_lt in Hlt.
  - intros (w & l & Hw & Hlt). exists (w, l). split.
    + apply list_elem_of_In. by apply elem_of_map_to_list.
    + by apply Z.ltb_lt.
Qed.

(** The four ways [Add] goes, in the order of its tests. *)
Lemma Add_cases t q :
  (poolFull q ∧ Priority t ≤ lowestPriority q ∧
   Add t q = Ret (Some ErrPoolFull) q) ∨
  (¬ (poolFull q ∧ Priority t ≤ lowestPriority q) ∧
   overLimit (weightLimits q) t = true ∧
   Add t q = Ret (Some ErrCallTooLarge) q) ∨
  (¬ (poolFull q ∧ Priority t ≤ lowestPriority q) ∧
   overLimit (weightLimits q) t = false ∧
   is_Some (transactions q !! TxHash t) ∧
   Add t q = Ret (Some ErrAlreadyExists) q) ∨
  (¬ (poolFull q ∧ Priority t ≤ lowestPriority q) ∧
   overLimit (weightLimits q) t = false ∧
   transactions q !! TxHash t = None ∧
   ∀ err q', Add t q ≠ Ret (Some err) q').
Proof.
  unfold Add, poolFull, checkTxLocked, isQueuedLocked.
  destruct (Z.leb_spec (maxTxPoolSize q) (rd (poolWeights q) WeightCount))
    as [Hfull|Hroom];
    destruct (Z.leb_spec (Priority t) (lowestPriority q)) as [Hlow|Hhigh];
    simpl; [by left| | |].
  all: right; destruct (overLimit (weightLimits q) t);
    [left; split; [lia|done]|right].
  all: case_bool_decide as Hqueued; [left; split; [lia|done]|right].
  all: split; [lia|]; split; [done|]; split; [by apply eq_None_not_Some|].
  all: intros err q'.
  - destruct (btree.Min (priorityIndex q)) as [lpi|];
      [destruct (removeTxsLocked [lpi] q) as [u q1|]|]; simpl; try done.
    + by destruct (checkSizes "Add" (insertTx t q1)).
    + by destruct (checkSizes "Add" (insertTx t q)).
  - by destruct (checkSizes "Add" (insertTx t q)).
  - by destruct (checkSizes "Add" (insertTx t q)).
Qed.

(** X6.  The errors of [Add] and their precedence: "tx pool is full" exactly
    when the pool is full and the priority is not above [lowestPriority];
    otherwise "call too large" exactly when some weight is above its limit;
    otherwise "tx already exists in pool" exactly when the hash is queued.
    The queue an error leaves is the queue [Add] was given. *)
Theorem Add_error_cases t q q' :
  (Add t q = Ret (Some ErrPoolFull) q' ↔
     q' = q ∧ poolFull q ∧ Priority t ≤ lowestPriority q) ∧
  (Add t q = Ret (Some ErrCallTooLarge) q' ↔
     q' = q ∧ ¬ (poolFull q ∧ Priority t ≤ lowestPriority q) ∧
     ∃ w l, weightLimits q !! w = Some l ∧ l < TxWeight t w) ∧
  (Add t q = Ret (Some ErrAlreadyExists) q' ↔
     q' = q ∧ ¬ (poolFull q ∧ Priority t ≤ lowestPriority q) ∧
     (∀ w l, weightLimits q !! w = Some l → TxWeight t w ≤ l) ∧
     is_Some (transactions q !! TxHash t)).
Proof.
  rewrite <- overLimit_true, <- overLimit_false.
  destruct (Add_cases t q)
    as [(Hf & Hl & Hadd)|[(Hn & Ho & Hadd)|[(Hn & Ho & Hq & Hadd)|(Hn & Ho & Hq & Hadd)]]].
  - rewrite Hadd. split_and!; split.
    all: try (intros [= <-]; done). all: try (intros (-> & H); done).
    all: intros (-> & H); tauto.
  - rewrite Hadd, Ho. split_and!; split.
    all: try (intros [= <-]; done). all: try (intros (-> & H); done).
    all: try (intros (-> & H); tauto).
    all: try (intros (-> & _ & H); done).
    all: intros (-> & _ & H & _); done.
  - rewrite Hadd, Ho. split_and!; split.
    all: try (intros [= <-]; done). all: try (intros (-> & H); done).
    all: try (intros (-> & H); tauto).
    all: try (intros (-> & _ & H); done).
    all: intros (-> & _ & H & _); done.
  - rewrite Ho, Hq. split_and!; split.
    all: try (intros H; by apply Hadd in H).
    all: try (intros (-> & H); tauto).
    all: try (intros (-> & _ & H); done).
    all: intros (-> & _ & _ & [? ?]); done.
Qed.

(** X7.  [Add] refuses a transaction with "tx pool is full" only when the
    pool is full and no queued transaction has a lower priority than the
    new one. *)
Theorem PoolFull_only_below_pool ops maxPoolSize limits q t q' x :
  Forall sourceOp ops →
  run ops (newPriorityQueue maxPoolSize limits) = Ret () q →
  Add t q = Ret (Some ErrPoolFull) q' →
  x ∈ priorityIndex q →
  poolFull q ∧ Priority t ≤ Priority (tx x).
Proof.
  intros Hops Hrun Hadd Hx.
  destruct (run_lowestBound ops _ q (consistent_empty maxPoolSize limits))
    as [Hq Hb]; try done.
  { intros y Hy. by apply elem_of_nil in Hy. }
  specialize (Hb x Hx).
  destruct (Add_cases t q)
    as [(Hf & Hl & _)|[(_ & _ & H)|[(_ & _ & _ & H)|(_ & _ & _ & H)]]].
  - split; [done|lia].
  - rewrite H in Hadd. done.
  - rewrite H in Hadd. done.
  - by apply H in Hadd.
Qed.

Lemma PoolFull_only_below_pool_witness :
  Forall sourceOp [OpAdd P5_A; OpAdd P5_B; OpAdd P5_C] ∧
  run [OpAdd P5_A; OpAdd P5_B; OpAdd P5_C] (newPriorityQueue 3 ∅)
    = Ret () P5_pool ∧
  Add P5_Z P5_pool = Ret (Some ErrPoolFull) P5_pool ∧
  mkItem P5_A ∈ priorityIndex P5_pool ∧
  poolFull P5_pool ∧ Priority P5_Z ≤ Priority (tx (mkItem P5_A)).
Proof.
  assert (Forall sourceOp [OpAdd P5_A; OpAdd P5_B; OpAdd P5_C]) as H1
    by (repeat constructor).
  assert (run [OpAdd P5_A; OpAdd P5_B; OpAdd P5_C] (newPriorityQueue 3 ∅)
          = Ret () P5_pool) as H2 by (vm_compute; reflexivity).
  assert (Add P5_Z P5_pool = Ret (Some ErrPoolFull) P5_pool) as H3
    by (vm_compute; reflexivity).
  assert (mkItem P5_A ∈ priorityIndex P5_pool) as H4 by (vm_compute; left).
  refine (conj H1 (conj H2 (conj H3 (conj H4 _)))).
  exact (PoolFull_only_below_pool _ 3 ∅ P5_pool P5_Z P5_pool (mkItem P5_A)
           H1 H2 H3 H4).
Defined.

Lemma removeTxsLocked_frame items q u q' :
  removeTxsLocked items q = Ret u q' →
  maxTxPoolSize q' = maxTxPoolSize q ∧ weightLimits q' = weightLimits q.
Proof.
  rewrite removeTxsLocked_unfold. intros H.
  apply checkSizes_Ret in H as [-> _]. simpl.
  by destruct (foldl_removeOne_frame items q) as (-> & -> & _).
Qed.

Lemma Add_success_queued_inv t q q' :
  Add t q = Ret None q' →
  transactions q' !! TxHash t = Some (mkItem t) ∧
  mkItem t ∈ priorityIndex q' ∧
  isQueuedLocked (TxHash t) q' = true ∧
  maxTxPoolSize q' = maxTxPoolSize q ∧
  weightLimits q' = weightLimits q.
Proof.
  unfold Add. destruct (_ && _); [done|].
  destruct (checkTxLocked t q); [done|].
  assert (∀ q1, maxTxPoolSize q1 = maxTxPoolSize q →
                weightLimits q1 = weightLimits q →
                bind (checkSizes "Add" (insertTx t q1))
                     (λ _ q0, Ret (@None AddError) q0)
                  = Ret None q' →
                transactions q' !! TxHash t = Some (mkItem t) ∧
                mkItem t ∈ priorityIndex q' ∧
                isQueuedLocked (TxHash t) q' = true ∧
                maxTxPoolSize q' = maxTxPoolSize q ∧
                weightLimits q' = weightLimits q) as Hins.
  { intros q1 Hmax Hlim.
    destruct (checkSizes "Add" (insertTx t q1)) as [u q2|] eqn:Hs; simpl; [|done].
    apply checkSizes_Ret in Hs as [-> _]. intros [= <-].
    unfold isQueuedLocked. simpl. rewrite lookup_insert_eq.
    split_and!; [done|apply ReplaceOrInsert_member| |done|done].
    rewrite bool_decide_true; eauto. }
  destruct (maxTxPoolSize q <=? rd (poolWeights q) WeightCount);
    [|by apply Hins].
  destruct (btree.Min (priorityIndex q)) as [lpi|]; [|by apply Hins].
  destruct (removeTxsLocked [lpi] q) as [u q1|] eqn:Hrem; simpl; [|done].
  apply removeTxsLocked_frame in Hrem as [? ?]. by apply Hins.
Qed.

(** X8.  After a successful [Add] the transaction is queued: the map holds
    it under its hash, the index holds it, and the capacity and the limits
    are those of before. *)
Theorem Add_success_queued t q q' :
  Add t q = Ret None q' →
  transactions q' !! TxHash t = Some (mkItem t) ∧
  mkItem t ∈ priorityIndex q' ∧
  isQueuedLocked (TxHash t) q' = true ∧
  maxTxPoolSize q' = maxTxPoolSize q ∧
  weightLimits q' = weightLimits q.
Proof. apply Add_success_queued_inv. Qed.

Lemma Add_success_queued_witness :
  Add P5_D P5_pool = Ret None P5_pool' ∧
  transactions P5_pool' !! TxHash P5_D = Some (mkItem P5_D) ∧
  mkItem P5_D ∈ priorityIndex P5_pool' ∧
  isQueuedLocked (TxHash P5_D) P5_pool' = true ∧
  maxTxPoolSize P5_pool' = maxTxPoolSize P5_pool ∧
  weightLimits P5_pool' = weightLimits P5_pool.
Proof.
  assert (Add P5_D P5_pool = Ret None P5_pool') as H
    by (vm_compute; reflexivity).
  refine (conj H _).
  exact (Add_success_queued P5_D P5_pool P5_pool' H).
Defined.

(** X9.  A successful [Add] on a consistent queue evicts at most one
    transaction, and only when the pool is full: the least item of the
    index under [Less].  Every other transaction stays queued. *)
Theorem Add_evicts_only_minimum t q q' h :
  consistent q →
  Add t q = Ret None q' →
  h ≠ TxHash t →
  transactions q' !! h =
    match btree.Min (priorityIndex q) with
    | Some lpi =>
        if decide (poolFull q ∧ h = TxHash (tx lpi)) then None
        else transactions q !! h
    | None => transactions q !! h
    end.
Proof.
  intros Hq Hadd Hne.
  destruct (Add_success_inv t q q' Hq Hadd) as (-> & _ & _).
  simpl. rewrite lookup_insert_ne by done.
  unfold evicted, poolFull.
  destruct (Z.leb_spec (maxTxPoolSize q) (rd (poolWeights q) WeightCount))
    as [Hfull|Hroom].
  - destruct (btree.Min (priorityIndex q)) as [lpi|]; [|done].
    simpl. rewrite removeOne_transactions.
    destruct (decide (h = TxHash (tx lpi))) as [->|Hne'].
    + rewrite lookup_delete_eq. by rewrite decide_True.
    + rewrite lookup_delete_ne by done. rewrite decide_False; [done|tauto].
  - destruct (btree.Min (priorityIndex q)) as [lpi|]; [|done].
    rewrite decide_False; [done|]. intros [? _]. lia.
Qed.

Lemma Add_evicts_only_minimum_witness :
  consistent P5_pool ∧
  Add P5_D P5_pool = Ret None P5_pool' ∧
  [2%N] ≠ TxHash P5_D ∧
  transactions P5_pool' !! [2%N] = transactions P5_pool !! [2%N].
Proof.
  pose proof P5_pool_consistent as H1.
  assert (Add P5_D P5_pool = Ret None P5_pool') as H2
    by (vm_compute; reflexivity).
  assert ([2%N] ≠ TxHash P5_D) as H3 by (by intros [=]).
  refine (conj H1 (conj H2 (conj H3 _))).
  rewrite (Add_evicts_only_minimum P5_D P5_pool P5_pool' [2%N] H1 H2 H3).
  vm_compute. reflexivity.
Defined.

(** ** Batches *)

Lemma foldl_removeOne_lookup_member items q h i :
  consistent q → (∀ x, x ∈ items → x ∈ priorityIndex q) →
  transactions q !! h = Some i →
  transactions (foldl removeOne q items) !! h =
    if decide (i ∈ items) then None else Some i.
Proof.
  intros Hq Hitems Hi. rewrite foldl_removeOne_transactions.
  apply (cons_lookup q Hq) in Hi as Hi'. destruct Hi' as [Hidx <-].
  destruct (decide (i ∈ items)) as [Hin|Hin].
  - rewrite decide_True; [done|]. apply list_elem_of_fmap. eauto.
  - rewrite decide_False; [done|]. intros Hc.
    apply list_elem_of_fmap in Hc as (x & Hx & Hxin).
    pose proof (consistent_member q x Hq (Hitems x Hxin)) as Hm.
    rewrite <- Hx, Hi in Hm. by injection Hm as ->.
Qed.

Lemma fitsBatch_TooLarge limits bw i :
  fitsBatch limits bw i = TooLarge →
  ∃ w l, (w, l) ∈ limits ∧ l < TxWeight (tx i) w.
Proof.
  induction limits as [|[w0 l0] limits IH]; simpl; [done|].
  destruct (Z.ltb_spec l0 (TxWeight (tx i) w0)) as [Hlt|].
  - intros _. exists w0, l0. split; [left|done].
  - destruct (_ <? rd minWeights w0); [done|].
    destruct (_ <? wrap64 _); [done|].
    intros Hfit. destruct (IH Hfit) as (w & l & Hin & Hlt). exists w, l.
    split; [by right|done].
Qed.

Lemma iterate_byPriority {S : Type} (cb : item → S → S * bool)
    (proj : S → list CheckedTransaction) items s :
  descending items →
  (∀ i s, proj (cb i s).1 = proj s ∨ proj (cb i s).1 = proj s ++ [tx i]) →
  byPriority (proj s) →
  (∀ t i, t ∈ proj s → i ∈ items → Priority (tx i) ≤ Priority t) →
  byPriority (proj (btree.iterate cb items s)).
Proof.
  intros Hd Hstep. revert s.
  induction items as [|i items IH]; simpl; intros s Hb Hle; [done|].
  apply StronglySorted_cons in Hd as [Hi Hd]. rewrite Forall_forall in Hi.
  specialize (IH Hd).
  assert (byPriority (proj (cb i s).1) ∧
          ∀ t j, t ∈ proj (cb i s).1 → j ∈ items →
                 Priority (tx j) ≤ Priority t) as [Hb' Hle'].
  { destruct (Hstep i s) as [->| ->].
    - split; [done|]. intros t j Ht Hj. apply Hle; [done|by right].
    - split.
      + apply StronglySorted_app_2; [|done|repeat constructor].
        intros t t' Ht Ht'. apply list_elem_of_singleton in Ht' as ->.
        apply Hle; [done|left].
      + intros t j Ht Hj. apply elem_of_app in Ht as [Ht|Ht].
        * apply Hle; [done|by right].
        * apply list_elem_of_singleton in Ht as ->. by apply Less_Priority, Hi. }
  destruct (cb i s) as [s' continue]. simpl in *.
  destruct continue; [by apply IH|done].
Qed.

(** X10.  The batch of [GetBatch] is in descending order of priority:
    priorities never increase along the batch. *)
Theorem GetBatch_descending order force q b q' :
  sortedIndex (priorityIndex q) →
  GetBatch order force q = Ret b q' →
  byPriority b.
Proof.
  intros Hs. unfold GetBatch.
  destruct (_ && _); [intros [= <- _]; constructor|].
  set (s0 := mkBatchState [] ((λ _, 0) <$> weightLimits q) []).
  assert (byPriority (batch (btree.Descend (priorityIndex q)
                               (visitBatch order (weightLimits q)) s0))) as Hb.
  { unfold btree.Descend. apply (iterate_byPriority _ batch).
    - by apply sortedIndex_reverse.
    - intros i s. unfold visitBatch. destruct (fitsBatch _ _ _); simpl; auto.
    - constructor.
    - intros t i Ht. by apply elem_of_nil in Ht. }
  destruct (removeTxsLocked _ q); simpl; [|done].
  by intros [= <- _].
Qed.

Lemma GetBatch_descending_witness :
  sortedIndex (priorityIndex S5_pool) ∧
  GetBatch inOrder true S5_pool = Ret [S5_A; S5_D] S5_pool ∧
  byPriority [S5_A; S5_D].
Proof.
  assert (sortedIndex (priorityIndex S5_pool)) as H1.
  { destruct (run_consistent S5_ops (newPriorityQueue 10 S5_limits)
                (consistent_empty 10 S5_limits)) as (q & Hrun & Hq).
    - repeat constructor.
    - unfold S5_pool. rewrite Hrun. apply Hq. }
  assert (GetBatch inOrder true S5_pool = Ret [S5_A; S5_D] S5_pool) as H2
    by (vm_compute; reflexivity).
  refine (conj H1 (conj H2 _)).
  exact (GetBatch_descending inOrder true S5_pool _ _ H1 H2).
Defined.

(** What the descent of [GetBatch] keeps: the batch is made of queued
    transactions within the limits, the items to remove are queued and
    over a limit. *)
Lemma GetBatch_descent order q :
  rangeOrder_ok order →
  let s := btree.Descend (priorityIndex q) (visitBatch order (weightLimits q))
             (mkBatchState [] ((λ _, 0) <$> weightLimits q) []) in
  (∀ t, t ∈ batch s →
        mkItem t ∈ priorityIndex q ∧ overLimit (weightLimits q) t = false) ∧
  (∀ x, x ∈ toRemove s →
        x ∈ priorityIndex q ∧ overLimit (weightLimits q) (tx x) = true).
Proof.
  intros Hok. simpl. unfold btree.Descend.
  apply (iterate_inv (λ s,
    (∀ t, t ∈ batch s →
          mkItem t ∈ priorityIndex q ∧ overLimit (weightLimits q) t = false) ∧
    (∀ x, x ∈ toRemove s →
          x ∈ priorityIndex q ∧ overLimit (weightLimits q) (tx x) = true))).
  - simpl. split; intros x Hx; by apply elem_of_nil in Hx.
  - intros i s Hi [Hb Hr]. rewrite elem_of_reverse in Hi. unfold visitBatch.
    destruct (fitsBatch _ _ _) eqn:Hfit; simpl; try done.
    + split; [done|]. intros x Hx. apply elem_of_app in Hx as [Hx|Hx]; [auto|].
      apply list_elem_of_singleton in Hx as ->. split; [done|].
      apply fitsBatch_TooLarge in Hfit as (w & l & Hin & Hlt).
      apply overLimit_true. exists w, l. split; [|done].
      rewrite (Hok i (map_to_list (weightLimits q))) in Hin.
      by apply elem_of_map_to_list in Hin.
    + split; [|done]. intros t Ht. apply elem_of_app in Ht as [Ht|Ht]; [auto|].
      apply list_elem_of_singleton in Ht as ->. split; [by destruct i|].
      apply overLimit_false. intros w l Hw.
      apply (fitsBatch_Fits _ _ _ Hfit w l).
      rewrite (Hok i (map_to_list (weightLimits q))).
      by apply elem_of_map_to_list.
Qed.

(** X11.  Every transaction [GetBatch] returns is within every weight limit
    on its own, and is still queued when the call returns; every queued
    transaction that is within the limits is still queued after the call:
    [GetBatch] removes only transactions that are over a limit. *)
Theorem GetBatch_removes_only_oversize order force q b q' :
  consistent q → rangeOrder_ok order →
  GetBatch order force q = Ret b q' →
  (∀ t, t ∈ b →
        (∀ w l, weightLimits q !! w = Some l → TxWeight t w ≤ l) ∧
        transactions q' !! TxHash t = Some (mkItem t)) ∧
  (∀ h i, transactions q !! h = Some i →
          (∀ w l, weightLimits q !! w = Some l → TxWeight (tx i) w ≤ l) →
          transactions q' !! h = Some i) ∧
  (∀ h, transactions q !! h = None → transactions q' !! h = None).
Proof.
  intros Hq Hok. unfold GetBatch.
  destruct (_ && _).
  { intros [= <- <-]. split_and!; [|done|done].
    intros t Ht. by apply elem_of_nil in Ht. }
  destruct (GetBatch_descent order q Hok) as [Hb Hr].
  set (s := btree.Descend _ _ _) in *.
  assert (∀ x, x ∈ toRemove s → x ∈ priorityIndex q) as Hmem
    by (intros x Hx; by apply Hr).
  destruct (removeTxsLocked_consistent (toRemove s) q Hq) as [-> _];
    [by apply ownItems_members|].
  simpl. intros [= <- <-]. simpl.
  assert (∀ h i, transactions q !! h = Some i →
                 overLimit (weightLimits q) (tx i) = false →
                 transactions (foldl removeOne q (toRemove s)) !! h = Some i)
    as Hkeep.
  { intros h i Hi Hover.
    rewrite (foldl_removeOne_lookup_member _ q h i Hq Hmem Hi).
    rewrite decide_False; [done|]. intros Hin.
    destruct (Hr i Hin) as [_ Hc]. congruence. }
  split_and!.
  - intros t Ht. destruct (Hb t Ht) as [Hidx Hover].
    split; [by apply overLimit_false|].
    apply Hkeep; [|done]. by apply (consistent_member q (mkItem t)).
  - intros h i Hi Hlim. apply Hkeep; [done|]. by apply overLimit_false.
  - intros h. apply foldl_removeOne_lookup_None.
Qed.

Lemma S6_pool_consistent : consistent S6_pool.
Proof.
  destruct (run_consistent S6_ops (newPriorityQueue 10 S3_limits)
              (consistent_empty 10 S3_limits)) as (q & Hrun & Hq).
  - repeat constructor.
  - unfold S6_pool. by rewrite Hrun.
Qed.

Lemma GetBatch_removes_only_oversize_witness :
  consistent S6_pool ∧ rangeOrder_ok inOrder ∧
  GetBatch inOrder true S6_pool = Ret [S6_T2] S6_pool' ∧
  transactions S6_pool' !! TxHash S6_T2 = Some (mkItem S6_T2) ∧
  transactions S6_pool' !! TxHash S6_T1 = None.
Proof.
  pose proof S6_pool_consistent as H1.
  assert (rangeOrder_ok inOrder) as H2 by (intros i l; reflexivity).
  assert (GetBatch inOrder true S6_pool = Ret [S6_T2] S6_pool') as H3
    by (vm_compute; reflexivity).
  refine (conj H1 (conj H2 (conj H3 _))).
  destruct (GetBatch_removes_only_oversize inOrder true S6_pool [S6_T2]
              S6_pool' H1 H2 H3) as (Hb & _ & _).
  split; [|vm_compute; reflexivity].
  apply (Hb S6_T2). left.
Defined.

(** ** The prioritized listing *)

Lemma GetPrioritizedBatch_descent limits offset limit items :
  let s := btree.iterate (visitPrioritized limits offset limit) items ([], []) in
  (∀ t, t ∈ s.1 →
        mkItem t ∈ items ∧ overLimit limits t = false ∧
        Hash_Equal (TxHash t) offset = false) ∧
  (∀ x, x ∈ s.2 → x ∈ items ∧ overLimit limits (tx x) = true).
Proof.
  simpl.
  apply (iterate_inv (λ s : list CheckedTransaction * list item,
    (∀ t, t ∈ s.1 →
          mkItem t ∈ items ∧ overLimit limits t = false ∧
          Hash_Equal (TxHash t) offset = false) ∧
    (∀ x, x ∈ s.2 → x ∈ items ∧ overLimit limits (tx x) = true))).
  - simpl. split; intros x Hx; by apply elem_of_nil in Hx.
  - intros i [b r] Hi [Hb Hr]. unfold visitPrioritized. simpl in *.
    destruct (overLimit limits (tx i)) eqn:Hover; simpl.
    + split; [done|]. intros x Hx. apply elem_of_app in Hx as [Hx|Hx]; [auto|].
      by apply list_elem_of_singleton in Hx as ->.
    + destruct (Hash_Equal (TxHash (tx i)) offset) eqn:Heq; simpl; [done|].
      assert (∀ t, t ∈ b ++ [tx i] →
                   mkItem t ∈ items ∧ overLimit limits t = false ∧
                   Hash_Equal (TxHash t) offset = false) as Hb'.
      { intros t Ht. apply elem_of_app in Ht as [Ht|Ht]; [auto|].
        apply list_elem_of_singleton in Ht as ->. by destruct i. }
      by destruct (limit <=? _).
Qed.

(** X12.  Every transaction [GetPrioritizedBatch] lists is within every
    weight limit, is still queued when the call returns, and, when an
    offset is given, comes strictly after the offset transaction in the
    order of [Less] (the offset itself is never listed).  The call removes
    only transactions that are over a limit. *)
Theorem GetPrioritizedBatch_after_offset offset limit q b q' :
  consistent q →
  GetPrioritizedBatch offset limit q = Ret b q' →
  (∀ t, t ∈ b →
        (∀ w l, weightLimits q !! w = Some l → TxWeight t w ≤ l) ∧
        transactions q' !! TxHash t = Some (mkItem t) ∧
        (∀ h p, offset = Some h → transactions q !! h = Some p →
                TxHash t ≠ h ∧ Less (mkItem t) p = true)) ∧
  (∀ h i, transactions q !! h = Some i →
          (∀ w l, weightLimits q !! w = Some l → TxWeight (tx i) w ≤ l) →
          transactions q' !! h = Some i) ∧
  (∀ h, transactions q !! h = None → transactions q' !! h = None).
Proof.
  intros Hq. unfold GetPrioritizedBatch.
  assert (∀ pivot,
    (∀ p, pivot = Some p → ∃ h, offset = Some h ∧ transactions q !! h = Some p) →
    (pivot = None → offset = None) →
    (let '(batch, toRemove) :=
       btree.DescendLessOrEqual (priorityIndex q) pivot
         (visitPrioritized (weightLimits q) offset limit) ([], []) in
     bind (removeTxsLocked toRemove q) (λ _ q0, Ret batch q0)) = Ret b q' →
    (∀ t, t ∈ b →
          (∀ w l, weightLimits q !! w = Some l → TxWeight t w ≤ l) ∧
          transactions q' !! TxHash t = Some (mkItem t) ∧
          (∀ h p, offset = Some h → transactions q !! h = Some p →
                  TxHash t ≠ h ∧ Less (mkItem t) p = true)) ∧
    (∀ h i, transactions q !! h = Some i →
            (∀ w l, weightLimits q !! w = Some l → TxWeight (tx i) w ≤ l) →
            transactions q' !! h = Some i) ∧
    (∀ h, transactions q !! h = None → transactions q' !! h = None))
    as Hdescend.
  { intros pivot Hpivot Hnone.
    set (items := match pivot with
                  | None => reverse (priorityIndex q)
                  | Some p =>
                      reverse (filter (λ x, Less p x = false) (priorityIndex q))
                  end).
    assert (btree.DescendLessOrEqual (priorityIndex q) pivot
              (visitPrioritized (weightLimits q) offset limit) ([], [])
            = btree.iterate (visitPrioritized (weightLimits q) offset limit)
                items ([], [])) as -> by (by destruct pivot).
    assert (∀ x, x ∈ items → x ∈ priorityIndex q ∧
                 ∀ p, pivot = Some p → Less p x = false) as Hitems.
    { intros x Hx. unfold items in Hx. destruct pivot as [p|];
        rewrite elem_of_reverse in Hx.
      - apply list_elem_of_filter in Hx as [Hp Hx]. split; [done|].
        by intros ? [= <-].
      - split; [done|]. by intros. }
    destruct (GetPrioritizedBatch_descent (weightLimits q) offset limit items)
      as [Hb Hr].
    destruct (btree.iterate _ _ _) as [batch rem]. simpl in Hb, Hr.
    assert (∀ x, x ∈ rem → x ∈ priorityIndex q) as Hmem.
    { intros x Hx. apply Hitems. by apply Hr. }
    destruct (removeTxsLocked_consistent rem q Hq) as [-> _];
      [by apply ownItems_members|].
    simpl. intros [= <- <-]. simpl.
    assert (∀ h i, transactions q !! h = Some i →
                   overLimit (weightLimits q) (tx i) = false →
                   transactions (foldl removeOne q rem) !! h = Some i) as Hkeep.
    { intros h i Hi Hover.
      rewrite (foldl_removeOne_lookup_member _ q h i Hq Hmem Hi).
      rewrite decide_False; [done|]. intros Hin.
      destruct (Hr i Hin) as [_ Hc]. congruence. }
    split_and!.
    - intros t Ht. destruct (Hb t Ht) as (Hin & Hover & Heq).
      destruct (Hitems _ Hin) as [Hidx Hless].
      split; [by apply overLimit_false|]. split.
      + apply Hkeep; [|done]. by apply (consistent_member q (mkItem t)).
      + intros h p -> Hp. simpl in Heq.
        apply bool_decide_eq_false in Heq. split; [done|].
        destruct pivot as [p'|]; [|by specialize (Hnone eq_refl)].
        destruct (Hpivot p' eq_refl) as (h' & [= <-] & Hp').
        rewrite Hp in Hp'. injection Hp' as <-.
        apply (cons_lookup q Hq) in Hp as [_ Hhash].
        apply Less_hash_ne; [simpl; congruence|]. by apply Hless.
    - intros h i Hi Hlim. apply Hkeep; [done|]. by apply overLimit_false.
    - intros h. apply foldl_removeOne_lookup_None. }
  destruct offset as [h|].
  - destruct (transactions q !! h) as [p|] eqn:Hp.
    + apply Hdescend; [|done]. intros ? [= <-]. eauto.
    + intros [= <- <-]. split_and!; [|done|done].
      intros t Ht. by apply elem_of_nil in Ht.
  - apply Hdescend; [done|done].
Qed.

Lemma GetPrioritizedBatch_after_offset_witness :
  consistent P5_pool ∧
  GetPrioritizedBatch (Some [2%N]) 5 P5_pool = Ret [P5_A] P5_pool ∧
  TxHash P5_A ≠ [2%N] ∧ Less (mkItem P5_A) (mkItem P5_B) = true.
Proof.
  pose proof P5_pool_consistent as H1.
  assert (GetPrioritizedBatch (Some [2%N]) 5 P5_pool = Ret [P5_A] P5_pool)
    as H2 by (vm_compute; reflexivity).
  refine (conj H1 (conj H2 _)).
  destruct (GetPrioritizedBatch_after_offset (Some [2%N]) 5 P5_pool [P5_A]
              P5_pool H1 H2) as (Hb & _ & _).
  destruct (Hb P5_A ltac:(left)) as (_ & _ & Hoff).
  apply (Hoff [2%N] (mkItem P5_B)); [done|vm_compute; reflexivity].
Defined.

Lemma visitPrioritized_take limits offset limit items b0 r0 :
  0 ≤ limit < 2 ^ 32 →
  Z.of_nat (length b0) < Z.max 1 limit →
  (btree.iterate (visitPrioritized limits offset limit) items (b0, r0)).1 =
  b0 ++ take (Z.to_nat (Z.max 1 limit) - length b0)
             (tx <$> filter (listed limits offset) items).
Proof.
  intros Hlimit. revert b0 r0.
  induction items as [|i items IH]; intros b0 r0 Hlen.
  - simpl. by rewrite take_nil, app_nil_r.
  - simpl btree.iterate. rewrite filter_cons.
    destruct (decide (listed limits offset i)) as [[Hover Heq]|Hn].
    + unfold visitPrioritized at 1. rewrite Hover, Heq.
      rewrite length_app. simpl length.
      assert (wrap32 (Z.of_nat (length b0 + 1)) = Z.of_nat (length b0 + 1))
        as -> by (unfold wrap32; apply Z.mod_small; lia).
      assert (Z.to_nat (Z.max 1 limit) - length b0 =
              S (Z.to_nat (Z.max 1 limit) - (length b0 + 1)))%nat as Hs by lia.
      rewrite Hs, fmap_cons. simpl take.
      destruct (Z.leb_spec limit (Z.of_nat (length b0 + 1))).
      * simpl. replace (Z.to_nat (Z.max 1 limit) - (length b0 + 1))%nat
          with 0%nat by lia. by rewrite take_0.
      * rewrite IH by (rewrite length_app; simpl; lia).
        rewrite length_app. simpl length. by rewrite <- app_assoc.
    + unfold visitPrioritized at 1.
      destruct (overLimit limits (tx i)) eqn:Hover; [by apply IH|].
      destruct (Hash_Equal (TxHash (tx i)) offset) eqn:Heq; [by apply IH|].
      by destruct Hn.
Qed.

(** X13.  What [GetPrioritizedBatch] lists, for a limit that is a
    [uint32]: of the items from the offset item down, or of all items
    without an offset, taken from the largest to the smallest, those that
    are within the weight limits and are not the offset, cut after [limit]
    of them, after one when [limit] is 0.  An offset that is not queued
    gives the empty listing. *)
Theorem GetPrioritizedBatch_listing offset limit q b q' :
  0 ≤ limit < 2 ^ 32 →
  GetPrioritizedBatch offset limit q = Ret b q' →
  b = match offset with
      | None =>
          take (Z.to_nat (Z.max 1 limit))
               (tx <$> filter (listed (weightLimits q) None)
                              (reverse (priorityIndex q)))
      | Some h =>
          match transactions q !! h with
          | None => []
          | Some p =>
              take (Z.to_nat (Z.max 1 limit))
                   (tx <$> filter (listed (weightLimits q) (Some h))
                             (reverse (filter (λ x, Less p x = false)
                                              (priorityIndex q))))
          end
      end.
Proof.
  intros Hlimit. unfold GetPrioritizedBatch.
  assert (∀ pivot items,
    btree.DescendLessOrEqual (priorityIndex q) pivot
      (visitPrioritized (weightLimits q) offset limit) ([], [])
    = btree.iterate (visitPrioritized (weightLimits q) offset limit)
        items ([], []) →
    (let '(batch, toRemove) :=
       btree.DescendLessOrEqual (priorityIndex q) pivot
         (visitPrioritized (weightLimits q) offset limit) ([], []) in
     bind (removeTxsLocked toRemove q) (λ _ q0, Ret batch q0)) = Ret b q' →
    b = take (Z.to_nat (Z.max 1 limit))
             (tx <$> filter (listed (weightLimits q) offset) items))
    as Hdescend.
  { intros pivot items ->.
    pose proof (visitPrioritized_take (weightLimits q) offset limit items
                  [] [] Hlimit ltac:(simpl; lia)) as Htake.
    destruct (btree.iterate _ _ _) as [batch rem]. simpl in Htake.
    destruct (removeTxsLocked rem q); simpl; [|done].
    intros [= <- _]. rewrite Htake. f_equal. lia. }
  destruct offset as [h|].
  - destruct (transactions q !! h) as [p|]; [|by intros [= <- _]].
    by apply (Hdescend (Some p)).
  - by apply (Hdescend None).
Qed.

Lemma GetPrioritizedBatch_listing_witness :
  0 ≤ 1 < 2 ^ 32 ∧
  GetPrioritizedBatch (Some [3%N]) 1 P5_pool = Ret [P5_B] P5_pool ∧
  [P5_B] = take (Z.to_nat (Z.max 1 1))
             (tx <$> filter (listed (weightLimits P5_pool) (Some [3%N]))
                (reverse (filter (λ x, Less (mkItem P5_C) x = false)
                                 (priorityIndex P5_pool)))).
Proof.
  assert (0 ≤ 1 < 2 ^ 32) as H1 by lia.
  assert (GetPrioritizedBatch (Some [3%N]) 1 P5_pool = Ret [P5_B] P5_pool)
    as H2 by (vm_compute; reflexivity).
  refine (conj H1 (conj H2 _)).
  exact (GetPrioritizedBatch_listing (Some [3%N]) 1 P5_pool [P5_B] P5_pool
           H1 H2).
Defined.

(** ** [GetBatch] without weight limits *)

Lemma addKnownWeights_empty weights : addKnownWeights ∅ weights = ∅.
Proof.
  apply map_eq. intros k. by rewrite addKnownWeights_lookup, lookup_empty.
Qed.

Lemma visitBatch_no_limits order items b r :
  rangeOrder_ok order →
  btree.iterate (visitBatch order ∅) items (mkBatchState b ∅ r) =
  mkBatchState (b ++ (tx <$> items)) ∅ r.
Proof.
  intros Hok. revert b. induction items as [|i items IH]; intros b.
  - simpl. by rewrite app_nil_r.
  - simpl btree.iterate. unfold visitBatch at 1.
    rewrite map_to_list_empty.
    pose proof (Hok i []) as Hnil. apply Permutation_nil_r in Hnil.
    rewrite Hnil. simpl. rewrite addKnownWeights_empty, IH.
    by rewrite <- app_assoc.
Qed.

(** X14.  With no weight limits configured, [GetBatch] without [force]
    never returns a batch, and [GetBatch] with [force] returns every queued
    transaction, from the highest priority to the lowest, and removes
    nothing. *)
Theorem GetBatch_no_limits order q :
  rangeOrder_ok order →
  weightLimits q = ∅ →
  sizesAgree q →
  GetBatch order false q = Ret [] q ∧
  GetBatch order true q = Ret (tx <$> reverse (priorityIndex q)) q.
Proof.
  intros Hok Hlim Hsizes. unfold GetBatch.
  rewrite Hlim, map_to_list_empty. simpl. split; [done|].
  rewrite fmap_empty. unfold btree.Descend.
  rewrite visitBatch_no_limits by done. simpl.
  rewrite removeTxsLocked_unfold. simpl. unfold recomputed. simpl.
  assert (set_lowestPriority (lowestPriority q) q = q) as -> by (by destruct q).
  by rewrite (checkSizes_sizesAgree _ _ Hsizes).
Qed.

Lemma GetBatch_no_limits_witness :
  rangeOrder_ok inOrder ∧ weightLimits P5_pool = ∅ ∧ sizesAgree P5_pool ∧
  GetBatch inOrder false P5_pool = Ret [] P5_pool ∧
  GetBatch inOrder true P5_pool = Ret [P5_C; P5_B; P5_A] P5_pool.
Proof.
  assert (rangeOrder_ok inOrder) as H1 by (intros i l; reflexivity).
  assert (weightLimits P5_pool = ∅) as H2 by (vm_compute; reflexivity).
  assert (sizesAgree P5_pool) as H3 by (split; vm_compute; reflexivity).
  refine (conj H1 (conj H2 (conj H3 _))).
  exact (GetBatch_no_limits inOrder P5_pool H1 H2 H3).
Defined.

(** ** Lookups *)

Lemma GetKnownBatch_loop q (batch : list Hash) :
  ∃ missing : gmap Hash nat,
    GetKnownBatch batch q
    = Ret ((λ h, tx <$> transactions q !! h) <$> batch, missing) q ∧
    ∀ h (i : nat), missing !! h = Some i ↔
                   batch !! i = Some h ∧ transactions q !! h = None ∧
                   ∀ j, batch !! j = Some h → (j ≤ i)%nat.
Proof.
  unfold GetKnownBatch.
  induction batch as [|x batch IH] using rev_ind.
  - exists ∅. split; [done|]. intros h i. rewrite lookup_empty.
    split; [done|]. by intros [? _].
  - destruct IH as (missing & Hfold & Hmissing). injection Hfold as Hfold.
    rewrite imap_app, foldl_app, Hfold. simpl. rewrite Nat.add_0_r, fmap_app.
    destruct (transactions q !! x) as [it|] eqn:Hx; simpl.
    + exists missing. split; [by rewrite Hx|]. intros h i. rewrite Hmissing. split.
      * intros (Hi & Hnone & Hmax). split; [by apply lookup_app_l_Some|].
        split; [done|]. intros j Hj.
        apply lookup_app_Some in Hj as [Hj|[_ Hj]]; [by apply Hmax|].
        apply list_lookup_singleton_Some in Hj as [_ ->]. congruence.
      * intros (Hi & Hnone & Hmax).
        apply lookup_app_Some in Hi as [Hi|[_ Hi]].
        -- split; [done|]. split; [done|]. intros j Hj. apply Hmax.
           by apply lookup_app_l_Some.
        -- apply list_lookup_singleton_Some in Hi as [_ ->]. congruence.
    + exists (<[x := length batch]> missing). split; [by rewrite Hx|]. intros h i.
      rewrite lookup_insert_Some, Hmissing. split.
      * intros [[<- <-]|(Hne & Hi & Hnone & Hmax)].
        -- split; [by rewrite lookup_app_r, Nat.sub_diag|]. split; [done|].
           intros j Hj. apply lookup_lt_Some in Hj.
           rewrite length_app in Hj. simpl in Hj. lia.
        -- split; [by apply lookup_app_l_Some|]. split; [done|]. intros j Hj.
           apply lookup_app_Some in Hj as [Hj|[_ Hj]]; [by apply Hmax|].
           by apply list_lookup_singleton_Some in Hj as [_ ->].
      * intros (Hi & Hnone & Hmax).
        destruct (decide (x = h)) as [->|Hne].
        -- left. split; [done|].
           assert ((batch ++ [h]) !! length batch = Some h) as Hlast
             by (by rewrite lookup_app_r, Nat.sub_diag).
           apply Hmax in Hlast. apply lookup_lt_Some in Hi.
           rewrite length_app in Hi. simpl in Hi. lia.
        -- right. split; [done|].
           apply lookup_app_Some in Hi as [Hi|[_ Hi]].
           ++ split; [done|]. split; [done|]. intros j Hj. apply Hmax.
              by apply lookup_app_l_Some.
           ++ by apply list_lookup_singleton_Some in Hi as [_ ->].
Qed.

(** X15.  [GetKnownBatch] leaves the queue as it is and answers in the
    order of its input: slot [i] of the result holds the transaction queued
    under hash [i] of the batch, or nil when there is none, and the map of
    the missing hashes holds exactly the hashes that are not queued, each
    with the index of its last occurrence in the batch. *)
Theorem GetKnownBatch_slots (batch : list Hash) q :
  ∃ result missing,
    GetKnownBatch batch q = Ret (result, missing) q ∧
    length result = length batch ∧
    (∀ (i : nat) h, batch !! i = Some h →
                    result !! i = Some (tx <$> transactions q !! h)) ∧
    (∀ h (i : nat), missing !! h = Some i ↔
                    batch !! i = Some h ∧ transactions q !! h = None ∧
                    ∀ j, batch !! j = Some h → (j ≤ i)%nat).
Proof.
  destruct (GetKnownBatch_loop q batch) as (missing & Hfold & Hmissing).
  exists ((λ h, tx <$> transactions q !! h) <$> batch), missing.
  split; [done|].
  split; [by rewrite length_fmap|]. split; [|done].
  intros i h Hi. by rewrite list_lookup_fmap, Hi.
Qed.


(** ** Invariants of the queue *)

(** X17.  From a new queue, whatever public operations are called, every
    total of [poolWeights] is the sum of the weights of the queued
    transactions in that dimension, reduced modulo 2^64; a dimension no
    queued transaction has reads as 0. *)
Theorem P2_pool_weights ops maxPoolSize limits q d :
  Forall sourceOp ops →
  run ops (newPriorityQueue maxPoolSize limits) = Ret () q →
  rd (poolWeights q) d = wrap64 (totalWeight d (priorityIndex q)).
Proof.
  intros Hops Hrun.
  destruct (run_consistent ops _ (consistent_empty maxPoolSize limits) Hops)
    as (q1 & Hrun1 & Hq).
  rewrite Hrun in Hrun1. injection Hrun1 as <-. apply Hq.
Qed.

Lemma P2_pool_weights_witness :
  Forall sourceOp S6_ops ∧
  run S6_ops (newPriorityQueue 10 S3_limits) = Ret () S6_pool ∧
  rd (poolWeights S6_pool) WeightSizeBytes = 550.
Proof.
  assert (Forall sourceOp S6_ops) as H1 by (repeat constructor).
  assert (run S6_ops (newPriorityQueue 10 S3_limits) = Ret () S6_pool) as H2
    by (vm_compute; reflexivity).
  refine (conj H1 (conj H2 _)).
  rewrite (P2_pool_weights S6_ops 10 S3_limits S6_pool WeightSizeBytes H1 H2).
  vm_compute. reflexivity.
Defined.

(** X18.  From a new queue, whatever public operations are called, the map
    and the index hold the same transactions: the map holds an item under
    a hash exactly when the index holds that item and the hash is its own,
    the index is in ascending order of [Less], and no two queued
    transactions have the same hash. *)
Theorem P4_indices_agree ops maxPoolSize limits q :
  Forall sourceOp ops →
  run ops (newPriorityQueue maxPoolSize limits) = Ret () q →
  (∀ h i, transactions q !! h = Some i ↔
          i ∈ priorityIndex q ∧ TxHash (tx i) = h) ∧
  sortedIndex (priorityIndex q) ∧
  NoDup ((λ i, TxHash (tx i)) <$> priorityIndex q).
Proof.
  intros Hops Hrun.
  destruct (run_consistent ops _ (consistent_empty maxPoolSize limits) Hops)
    as (q1 & Hrun1 & Hq).
  rewrite Hrun in Hrun1. injection Hrun1 as <-.
  split; [apply Hq|]. split; [apply Hq|].
  apply NoDup_fmap_2_strong; [|apply sortedIndex_NoDup, Hq].
  intros x y Hx Hy Heq.
  pose proof (consistent_member q x Hq Hx) as Hmx.
  pose proof (consistent_member q y Hq Hy) as Hmy.
  rewrite Heq, Hmy in Hmx. by injection Hmx.
Qed.

Lemma P4_indices_agree_witness :
  Forall sourceOp P1_ops ∧
  ∃ q, run P1_ops (newPriorityQueue 2 S5_limits) = Ret () q ∧
       NoDup ((λ i, TxHash (tx i)) <$> priorityIndex q).
Proof.
  assert (Forall sourceOp P1_ops) as H1
    by (repeat constructor; vm_compute; reflexivity).
  refine (conj H1 _).
  eexists. split; [vm_compute; reflexivity|].
  eapply (P4_indices_agree P1_ops 2 S5_limits _ H1). vm_compute. reflexivity.
Defined.

(** ** Runtime modes *)

(** X19.  [UnmarshalText] accepts exactly the five names of the runtime
    modes, and then the receiver holds the text itself; on any other text
    it returns an error and leaves the receiver as it was. *)
Theorem UnmarshalText_modes m text :
  ((UnmarshalText m text).2 = None ↔
     text ∈ [RuntimeModeNone; RuntimeModeCompute; RuntimeModeKeymanager;
             RuntimeModeClient; RuntimeModeClientStateless]) ∧
  ((UnmarshalText m text).2 = None → (UnmarshalText m text).1 = text) ∧
  ((UnmarshalText m text).2 ≠ None → (UnmarshalText m text).1 = m).
Proof.
  unfold UnmarshalText.
  destruct (String.eqb_spec text RuntimeModeNone) as [->|H1];
    [split_and!; [split; [intros _; set_solver|done]|done|done]|].
  destruct (String.eqb_spec text RuntimeModeCompute) as [->|H2];
    [split_and!; [split; [intros _; set_solver|done]|done|done]|].
  destruct (String.eqb_spec text RuntimeModeKeymanager) as [->|H3];
    [split_and!; [split; [intros _; set_solver|done]|done|done]|].
  destruct (String.eqb_spec text RuntimeModeClient) as [->|H4];
    [split_and!; [split; [intros _; set_solver|done]|done|done]|].
  destruct (String.eqb_spec text RuntimeModeClientStateless) as [->|H5];
    [split_and!; [split; [intros _; set_solver|done]|done|done]|].
  simpl. split_and!; [|done|done]. split; [done|].
  intros Hin. repeat (apply elem_of_cons in Hin as [?|Hin]; [done|]).
  by apply elem_of_nil in Hin.
Qed.

(** ** Witnesses of the bounds on batches *)

Lemma rd_nonneg (m : gmap Weight uint64) w :
  map_Forall (λ _ v, 0 ≤ v) m → 0 ≤ rd m w.
Proof.
  intros Hm. unfold rd. destruct (m !! w) as [v|] eqn:Hw; simpl; [|lia].
  by apply (Hm w v).
Qed.

Lemma GetBatch_capacity_no_wrap_witness :
  rangeOrder_ok inOrder ∧
  (∀ w l, weightLimits S5_pool !! w = Some l → 0 ≤ l < 2 ^ 63) ∧
  (∀ i w, i ∈ priorityIndex S5_pool → 0 ≤ TxWeight (tx i) w) ∧
  weightLimits S5_pool !! WeightSizeBytes = Some 100 ∧
  GetBatch inOrder true S5_pool = Ret [S5_A; S5_D] S5_pool ∧
  batchTotal WeightSizeBytes [S5_A; S5_D] ≤ 100.
Proof.
  assert (rangeOrder_ok inOrder) as H1 by (intros i l; reflexivity).
  assert (∀ w l, weightLimits S5_pool !! w = Some l → 0 ≤ l < 2 ^ 63) as H2.
  { assert (map_Forall (λ _ l, 0 ≤ l < 2 ^ 63) (weightLimits S5_pool)) as Hall
      by (apply (bool_decide_unpack _); vm_compute; exact I).
    intros w l Hw. by apply (Hall w l). }
  assert (∀ i w, i ∈ priorityIndex S5_pool → 0 ≤ TxWeight (tx i) w) as H3.
  { assert (Forall (λ i, map_Forall (λ _ v, 0 ≤ v) (tx_weights (tx i)))
                   (priorityIndex S5_pool)) as Hall
      by (apply (bool_decide_unpack _); vm_compute; exact I).
    intros i w Hi. rewrite Forall_forall in Hall.
    apply rd_nonneg. by apply Hall. }
  assert (weightLimits S5_pool !! WeightSizeBytes = Some 100) as H4
    by (vm_compute; reflexivity).
  assert (GetBatch inOrder true S5_pool = Ret [S5_A; S5_D] S5_pool) as H5
    by (vm_compute; reflexivity).
  refine (conj H1 (conj H2 (conj H3 (conj H4 (conj H5 _))))).
  exact (GetBatch_capacity_no_wrap inOrder true S5_pool [S5_A; S5_D] S5_pool
           WeightSizeBytes 100 H1 H2 H3 H4 H5).
Defined.

Lemma GetPrioritizedBatch_bound_order_witness :
  sortedIndex (priorityIndex P5_pool) ∧ 0 ≤ 2 < 2 ^ 32 ∧
  GetPrioritizedBatch None 2 P5_pool = Ret [P5_C; P5_B] P5_pool ∧
  Z.of_nat (length [P5_C; P5_B]) ≤ Z.max 1 2 ∧ byPriority [P5_C; P5_B].
Proof.
  assert (sortedIndex (priorityIndex P5_pool)) as H1
    by apply P5_pool_consistent.
  assert (0 ≤ 2 < 2 ^ 32) as H2 by lia.
  assert (GetPrioritizedBatch None 2 P5_pool = Ret [P5_C; P5_B] P5_pool) as H3
    by (vm_compute; reflexivity).
  refine (conj H1 (conj H2 (conj H3 _))).
  exact (GetPrioritizedBatch_bound_order None 2 P5_pool [P5_C; P5_B] P5_pool
           H1 H2 H3).
Defined.

(** ** What the operations leave alone *)

Lemma GetBatch_Ret_inv order force q b q' :
  GetBatch order force q = Ret b q' →
  q' = q ∨ ∃ items, removeTxsLocked items q = Ret () q'.
Proof.
  unfold GetBatch. destruct (_ && _); [intros [= _ <-]; by left|].
  destruct (removeTxsLocked _ q) as [[] q1|] eqn:Hrem; simpl; [|done].
  intros [= _ <-]. right. eauto.
Qed.

Lemma GetPrioritizedBatch_Ret_inv offset limit q b q' :
  GetPrioritizedBatch offset limit q = Ret b q' →
  q' = q ∨ ∃ items, removeTxsLocked items q = Ret () q'.
Proof.
  unfold GetPrioritizedBatch.
  assert (∀ pivot,
    (let '(batch, toRemove) :=
       btree.DescendLessOrEqual (priorityIndex q) pivot
         (visitPrioritized (weightLimits q) offset limit) ([], []) in
     bind (removeTxsLocked toRemove q) (λ _ q0, Ret batch q0)) = Ret b q' →
    q' = q ∨ ∃ items, removeTxsLocked items q = Ret () q') as Hdescend.
  { intros pivot. destruct (btree.DescendLessOrEqual _ _ _ _) as [batch rem].
    destruct (removeTxsLocked rem q) as [[] q1|] eqn:Hrem; simpl; [|done].
    intros [= _ <-]. right. eauto. }
  destruct offset as [h|]; [|apply Hdescend].
  destruct (transactions q !! h); [apply Hdescend|].
  intros [= _ <-]. by left.
Qed.

Lemma removeTxsLocked_shrinks items q u q' h i :
  removeTxsLocked items q = Ret u q' →
  transactions q' !! h = Some i → transactions q !! h = Some i.
Proof.
  rewrite removeTxsLocked_unfold. intros H.
  apply checkSizes_Ret in H as [-> _]. simpl.
  apply foldl_removeOne_lookup.
Qed.

Lemma Add_error_leaves_queue_inv t q err q' :
  Add t q = Ret (Some err) q' → q' = q.
Proof.
  intros Hadd.
  destruct (Add_cases t q)
    as [(_ & _ & H)|[(_ & _ & H)|[(_ & _ & _ & H)|(_ & _ & _ & H)]]].
  - rewrite H in Hadd. by injection Hadd.
  - rewrite H in Hadd. by injection Hadd.
  - rewrite H in Hadd. by injection Hadd.
  - by apply H in Hadd.
Qed.

(** X22.  Only [UpdateMaxPoolSize] and [UpdateWeightLimits] change the
    capacity and the weight limits: every other public operation, [Clear]
    included, returns with both as they were. *)
Theorem limits_changed_by_updates_only o q q' :
  notUpdate o →
  step o q = Ret () q' →
  maxTxPoolSize q' = maxTxPoolSize q ∧ weightLimits q' = weightLimits q.
Proof.
  destruct o; simpl; intros Ho; try done.
  - destruct (Add t q) as [[err|] q1|] eqn:Hadd; simpl; [| |done].
    + intros [= <-]. by rewrite (Add_error_leaves_queue_inv t q err q1 Hadd).
    + intros [= <-].
      by destruct (Add_success_queued_inv t q q1 Hadd) as (_ & _ & _ & ? & ?).
  - destruct (GetBatch order force q) as [b q1|] eqn:Hget; simpl; [|done].
    intros [= <-].
    destruct (GetBatch_Ret_inv _ _ _ _ _ Hget) as [->|[items Hrem]]; [done|].
    by apply removeTxsLocked_frame in Hrem.
  - destruct (GetPrioritizedBatch offset limit q) as [b q1|] eqn:Hget; simpl;
      [|done].
    intros [= <-].
    destruct (GetPrioritizedBatch_Ret_inv _ _ _ _ _ Hget) as [->|[items Hrem]];
      [done|].
    by apply removeTxsLocked_frame in Hrem.
  - by intros [= <-].
  - by intros [= <-].
  - unfold RemoveTxBatch. intros Hrem. by apply removeTxsLocked_frame in Hrem.
  - by intros [= <-].
  - by intros [= <-].
  - by intros [= <-].
Qed.

Lemma limits_changed_by_updates_only_witness :
  notUpdate (OpGetBatch inOrder true) ∧
  step (OpGetBatch inOrder true) S6_pool = Ret () S6_pool' ∧
  maxTxPoolSize S6_pool' = maxTxPoolSize S6_pool ∧
  weightLimits S6_pool' = weightLimits S6_pool.
Proof.
  assert (notUpdate (OpGetBatch inOrder true)) as H1 by exact I.
  assert (step (OpGetBatch inOrder true) S6_pool = Ret () S6_pool') as H2
    by (vm_compute; reflexivity).
  refine (conj H1 (conj H2 _)).
  exact (limits_changed_by_updates_only _ S6_pool S6_pool' H1 H2).
Defined.

(** X23.  Only [Add] puts a transaction into the queue: after every other
    public operation, whatever the map holds under a hash it held before
    the call. *)
Theorem queue_grows_by_Add_only o q q' h i :
  notAdd o →
  step o q = Ret () q' →
  transactions q' !! h = Some i →
  transactions q !! h = Some i.
Proof.
  destruct o; simpl; intros Ho; try done.
  - destruct (GetBatch order force q) as [b q1|] eqn:Hget; simpl; [|done].
    intros [= <-].
    destruct (GetBatch_Ret_inv _ _ _ _ _ Hget) as [->|[items Hrem]]; [done|].
    by apply (removeTxsLocked_shrinks items q () q1).
  - destruct (GetPrioritizedBatch offset limit q) as [b q1|] eqn:Hget; simpl;
      [|done].
    intros [= <-].
    destruct (GetPrioritizedBatch_Ret_inv _ _ _ _ _ Hget) as [->|[items Hrem]];
      [done|].
    by apply (removeTxsLocked_shrinks items q () q1).
  - by intros [= <-].
  - by intros [= <-].
  - unfold RemoveTxBatch. intros Hrem.
    by eapply removeTxsLocked_shrinks.
  - by intros [= <-].
  - by intros [= <-].
  - by intros [= <-].
  - by intros [= <-].
  - intros [= <-]. simpl. by rewrite lookup_empty.
Qed.

Lemma queue_grows_by_Add_only_witness :
  notAdd (OpGetBatch inOrder true) ∧
  step (OpGetBatch inOrder true) S6_pool = Ret () S6_pool' ∧
  transactions S6_pool' !! [2%N] = Some (mkItem S6_T2) ∧
  transactions S6_pool !! [2%N] = Some (mkItem S6_T2).
Proof.
  assert (notAdd (OpGetBatch inOrder true)) as H1 by exact I.
  assert (step (OpGetBatch inOrder true) S6_pool = Ret () S6_pool') as H2
    by (vm_compute; reflexivity).
  assert (transactions S6_pool' !! [2%N] = Some (mkItem S6_T2)) as H3
    by (vm_compute; reflexivity).
  refine (conj H1 (conj H2 (conj H3 _))).
  exact (queue_grows_by_Add_only _ S6_pool S6_pool' [2%N] (mkItem S6_T2)
           H1 H2 H3).
Defined.

(** ** The capacity *)

Lemma foldl_removeOne_size items q :
  (size (transactions (foldl removeOne q items)) ≤ size (transactions q))%nat.
Proof.
  revert q. induction items as [|i items IH]; intros q; simpl; [lia|].
  pose proof (IH (removeOne q i)) as H1.
  assert (size (transactions (removeOne q i)) ≤ size (transactions q))%nat
    as H2.
  { rewrite removeOne_transactions, map_size_delete.
    destruct (transactions q !! TxHash (tx i)); simpl; lia. }
  lia.
Qed.

Lemma removeTxsLocked_size items q u q' :
  removeTxsLocked items q = Ret u q' →
  (size (transactions q') ≤ size (transactions q))%nat.
Proof.
  rewrite removeTxsLocked_unfold. intros H.
  apply checkSizes_Ret in H as [-> _]. simpl. apply foldl_removeOne_size.
Qed.

Lemma Add_size_within t q q' :
  consistent q →
  1 ≤ maxTxPoolSize q < 2 ^ 64 →
  Z.of_nat (size (transactions q)) ≤ maxTxPoolSize q →
  Add t q = Ret None q' →
  Z.of_nat (size (transactions q')) ≤ maxTxPoolSize q.
Proof.
  intros Hq Hmax Hcap Hadd.
  destruct (Add_success_inv t q q' Hq Hadd) as (-> & _ & Hnone).
  simpl. rewrite map_size_insert_None by (by apply evicted_lookup_None).
  destruct (consistent_sizesAgree q Hq) as [Hlen Hcount].
  rewrite wrap64_small in Hcount by (unfold is_uint64; lia).
  unfold evicted. rewrite <- Hcount.
  destruct (Z.leb_spec (maxTxPoolSize q) (Z.of_nat (size (transactions q))))
    as [Hfull|Hroom]; [|lia].
  destruct (priorityIndex q) as [|lpi t0] eqn:Hidx; [simpl in Hlen; lia|].
  simpl. rewrite removeOne_transactions.
  rewrite map_size_delete_Some
    by (rewrite (consistent_member q lpi Hq); [eauto | rewrite Hidx; left]).
  lia.
Qed.

Lemma step_capacityKept o q q' :
  consistent q →
  1 ≤ maxTxPoolSize q < 2 ^ 64 →
  Z.of_nat (size (transactions q)) ≤ maxTxPoolSize q →
  capacityKept o →
  step o q = Ret () q' →
  maxTxPoolSize q' = maxTxPoolSize q ∧
  Z.of_nat (size (transactions q')) ≤ maxTxPoolSize q.
Proof.
  intros Hq Hmax Hcap Ho. destruct o; simpl in *; try done.
  - destruct (Add t q) as [[err|] q1|] eqn:Hadd; simpl; [| |done].
    + intros [= <-]. by rewrite (Add_error_leaves_queue_inv t q err q1 Hadd).
    + intros [= <-]. split.
      * by destruct (Add_success_queued_inv t q q1 Hadd) as (_ & _ & _ & ? & _).
      * by apply (Add_size_within t).
  - destruct (GetBatch order force q) as [b q1|] eqn:Hget; simpl; [|done].
    intros [= <-].
    destruct (GetBatch_Ret_inv _ _ _ _ _ Hget) as [->|[items Hrem]]; [done|].
    split; [by apply removeTxsLocked_frame in Hrem as [? _]|].
    apply removeTxsLocked_size in Hrem. lia.
  - destruct (GetPrioritizedBatch offset limit q) as [b q1|] eqn:Hget; simpl;
      [|done].
    intros [= <-].
    destruct (GetPrioritizedBatch_Ret_inv _ _ _ _ _ Hget) as [->|[items Hrem]];
      [done|].
    split; [by apply removeTxsLocked_frame in Hrem as [? _]|].
    apply removeTxsLocked_size in Hrem. lia.
  - by intros [= <-].
  - by intros [= <-].
  - unfold RemoveTxBatch. intros Hrem.
    split; [by apply removeTxsLocked_frame in Hrem as [? _]|].
    apply removeTxsLocked_size in Hrem. lia.
  - by intros [= <-].
  - by intros [= <-].
  - intros [= <-]. simpl. done.
  - intros [= <-]. simpl. split; [done|]. rewrite map_size_empty. lia.
Qed.

Lemma capacityKept_sourceOp o : capacityKept o → sourceOp o.
Proof. by destruct o. Qed.

Lemma run_capacityKept ops q q' :
  consistent q →
  1 ≤ maxTxPoolSize q < 2 ^ 64 →
  Z.of_nat (size (transactions q)) ≤ maxTxPoolSize q →
  Forall capacityKept ops →
  run ops q = Ret () q' →
  maxTxPoolSize q' = maxTxPoolSize q ∧
  Z.of_nat (size (transactions q')) ≤ maxTxPoolSize q.
Proof.
  intros Hq Hmax Hcap Hops. revert q Hq Hmax Hcap.
  induction Hops as [|o ops Ho Hops IH]; simpl; intros q Hq Hmax Hcap.
  - by intros [= <-].
  - destruct (step_consistent o q Hq (capacityKept_sourceOp o Ho))
      as (q1 & Hstep & Hq1).
    rewrite Hstep. simpl.
    destruct (step_capacityKept o q q1 Hq Hmax Hcap Ho Hstep) as [Hm Hs].
    intros Hrun. rewrite <- Hm. apply IH; try done; by rewrite Hm.
Qed.

(** X24.  A queue made with a capacity between 1 and 2^64 - 1 never holds
    more transactions than its capacity, whatever public operations are
    called, as long as [UpdateMaxPoolSize] is not among them; [Size] then
    reports exactly the number of queued transactions. *)
Theorem pool_within_capacity ops maxPoolSize limits q :
  1 ≤ maxPoolSize < 2 ^ 64 →
  Forall capacityKept ops →
  run ops (newPriorityQueue maxPoolSize limits) = Ret () q →
  Z.of_nat (size (transactions q)) ≤ maxPoolSize ∧
  maxTxPoolSize q = maxPoolSize ∧
  rd (poolWeights q) WeightCount = Z.of_nat (size (transactions q)).
Proof.
  intros Hmax Hops Hrun.
  pose proof (consistent_empty maxPoolSize limits) as Hq0.
  destruct (run_capacityKept ops _ q Hq0) as [Hm Hs]; try done.
  { simpl. rewrite map_size_empty. lia. }
  simpl in *. split; [done|]. split; [done|].
  destruct (run_consistent ops _ Hq0) as (q1 & Hrun1 & Hq).
  { eapply Forall_impl; [exact Hops|apply capacityKept_sourceOp]. }
  rewrite Hrun in Hrun1. injection Hrun1 as <-.
  destruct (consistent_sizesAgree q Hq) as [_ <-].
  apply wrap64_small. unfold is_uint64. lia.
Qed.

Lemma pool_within_capacity_witness :
  1 ≤ 3 < 2 ^ 64 ∧
  Forall capacityKept [OpAdd P5_A; OpAdd P5_B; OpAdd P5_C; OpAdd P5_D] ∧
  run [OpAdd P5_A; OpAdd P5_B; OpAdd P5_C; OpAdd P5_D] (newPriorityQueue 3 ∅)
    = Ret () P5_pool' ∧
  Z.of_nat (size (transactions P5_pool')) ≤ 3 ∧
  maxTxPoolSize P5_pool' = 3 ∧
  rd (poolWeights P5_pool') WeightCount
    = Z.of_nat (size (transactions P5_pool')).
Proof.
  assert (1 ≤ 3 < 2 ^ 64) as H1 by lia.
  assert (Forall capacityKept [OpAdd P5_A; OpAdd P5_B; OpAdd P5_C; OpAdd P5_D])
    as H2 by (repeat constructor).
  assert (run [OpAdd P5_A; OpAdd P5_B; OpAdd P5_C; OpAdd P5_D]
              (newPriorityQueue 3 ∅) = Ret () P5_pool') as H3
    by (vm_compute; reflexivity).
  refine (conj H1 (conj H2 (conj H3 _))).
  exact (pool_within_capacity _ 3 ∅ P5_pool' H1 H2 H3).
Defined.
